(** * cellseg3d-figures: the training driver and the plotting module

    A shallow embedding of [cellpose_repro/train_on_splits.py] and [plots.py].

    Conventions of the embedding:
    - a Python list, range or numpy array read in iteration order is a Rocq
      [list]; a 3-D volume is the list of its 2-D slices along axis 0;
    - a Python float is the rational number it denotes ([Q]); where the
      rounding of a float operation reaches the result (the product of line 48
      of the script, the default thresholds of the sweep) the operation is the
      exact one followed by [round_double], the rounding to binary64; a score
      that a numpy division can leave undefined is a [score], which adds
      [NaN];
    - a statement that can raise returns a [result]; the [for] loops thread
      their mutable locals through [for_each];
    - the plotting libraries are seen through what the code hands to them: the
      list of drawing commands issued, and the few styling globals it sets. *)

From Stdlib Require Import ZArith QArith Qround Qabs Qpower String Ascii.
From Stdlib Require Import DecimalString Lia Lqa.
From stdpp Require Import base list gmap strings.

Open Scope string_scope.
Open Scope list_scope.

(** ** Exceptions and the [result] monad *)

Inductive exn : Set :=
| IndexError
| ValueError
| AttributeError
| TypeError
| AssertionError.

Inductive result (A : Type) : Type :=
| Ok (a : A)
| Raise (e : exn).

Arguments Ok {A} a.
Arguments Raise {A} e.

#[global] Instance result_ret : MRet result := fun _ a => Ok a.
#[global] Instance result_bind : MBind result := fun _ _ f m =>
  match m with
  | Ok a => f a
  | Raise e => Raise e
  end.

Definition returns {A} (m : result A) : Prop := exists a, m = Ok a.

(** [for x in xs: body] over a state [S] of mutated locals. *)
Fixpoint for_each {X S : Type} (xs : list X) (body : X -> S -> result S) (s : S)
  : result S :=
  match xs with
  | [] => Ok s
  | x :: xs' => s' ← body x s; for_each xs' body s'
  end.

(** [enumerate(xs, start)] *)
Fixpoint enumerate_from {X : Type} (start : nat) (xs : list X) : list (nat * X) :=
  match xs with
  | [] => []
  | x :: xs' => (start, x) :: enumerate_from (S start) xs'
  end.

Definition enumerate {X : Type} (xs : list X) : list (nat * X) := enumerate_from 0 xs.

(** [xs[i]] for a non-negative index. *)
Definition getitem {X : Type} (xs : list X) (i : nat) : result X :=
  match xs !! i with
  | Some x => Ok x
  | None => Raise IndexError
  end.

(** [xs.append(x)] on a local that is either a list or [None]. *)
Definition append_opt {X : Type} (xs : option (list X)) (x : X) : result (option (list X)) :=
  match xs with
  | Some l => Ok (Some (l ++ [x]))
  | None => Raise AttributeError
  end.

(** ** [pathlib]: the stem of a POSIX path, and decimal formatting *)

Module Pathlib.

(** Splitting on the separator; the current component is kept reversed. *)
Fixpoint split_parts (cur : list ascii) (s : list ascii) : list (list ascii) :=
  match s with
  | [] => [rev cur]
  | c :: s' =>
      if Ascii.eqb c "/"%char then rev cur :: split_parts [] s'
      else split_parts (c :: cur) s'
  end.

Definition is_dot (p : list ascii) : bool :=
  match p with
  | [c] => Ascii.eqb c "."%char
  | _ => false
  end.

(** Empty and ["."] components are dropped when a path is parsed. *)
Definition parts (s : string) : list (list ascii) :=
  filter (fun p => negb (is_dot p) && negb (Nat.eqb (length p) 0))
         (split_parts [] (list_ascii_of_string s)).

(** [PurePath.name]: the final component, or the empty string. *)
Definition name (s : string) : list ascii := List.last (parts s) [].

(** [str.rfind(".")], as the index of the last dot. *)
Fixpoint rfind_dot (i : nat) (s : list ascii) : option nat :=
  match s with
  | [] => None
  | c :: s' =>
      match rfind_dot (S i) s' with
      | Some k => Some k
      | None => if Ascii.eqb c "."%char then Some i else None
      end
  end.

(** [PurePath.stem]: the name without its last suffix; a leading or a
    trailing dot does not start a suffix. *)
Definition stem (s : string) : string :=
  let n := name s in
  match rfind_dot 0 n with
  | Some i =>
      if (0 <? i)%nat && (i <? length n - 1)%nat
      then string_of_list_ascii (take i n)
      else string_of_list_ascii n
  | None => string_of_list_ascii n
  end.

End Pathlib.

(** [f"{j}"] for a non-negative integer. *)
Definition str_of_nat (j : nat) : string := NilEmpty.string_of_uint (Nat.to_uint j).

(** ** [train_on_splits.py]: the volume-to-slice converter *)

(** The formatted per-slice name of line 23. *)
Definition slice_name (source : string) (j : nat) : string :=
  (Pathlib.stem source ++ "_" ++ str_of_nat j ++ ".tif")%string.

Section Convert.

(** Element types before and after [astype], and the element cast that the
    [dtype] argument stands for. *)
Context {A B : Type}.
Variable dtype : A -> B.

(** A 2-D array and a 3-D volume over an element type. *)
Definition slice2d (T : Type) : Type := list (list T).
Definition volume (T : Type) : Type := list (slice2d T).

(** [slice_.astype(dtype)] *)
Definition astype (s : slice2d A) : slice2d B := map (map dtype) s.

(** The body of the inner loop, lines 20-24. *)
Definition convert_slice (images_names : option (list string)) (i : nat)
    (js : nat * slice2d A) (st : list (slice2d B) * option (list string))
  : result (list (slice2d B) * option (list string)) :=
  let '(j, slice_) := js in
  let '(images_2d, images_names_2d) := st in
  let images_2d := images_2d ++ [astype slice_] in
  match images_names with
  | Some names =>
      source ← getitem names i;
      images_names_2d ← append_opt images_names_2d (slice_name source j);
      Ok (images_2d, images_names_2d)
  | None => Ok (images_2d, images_names_2d)
  end.

Definition convert_2d (images_array : list (volume A))
    (images_names : option (list string))
  : result (list (slice2d B) * option (list string)) :=
  let images_2d := [] in
  let images_names_2d :=
    match images_names with Some _ => Some [] | None => None end in
  for_each (enumerate images_array)
    (fun '(i, image) st =>
       for_each (enumerate image) (convert_slice images_names i) st)
    (images_2d, images_names_2d).

End Convert.

(** ** [train_on_splits.py]: the split assigner *)

(** [round(x)] on a float: to the nearest integer, a tie to the even one. *)
Definition py_round (x : Q) : Z :=
  let fl := Qfloor x in
  match (x - inject_Z fl ?= 1 # 2)%Q with
  | Lt => fl
  | Gt => (fl + 1)%Z
  | Eq => if Z.even fl then fl else (fl + 1)%Z
  end.

(** [range(n)] *)
Definition py_range (n : nat) : list nat := seq 0 n.

(** The position a slice bound denotes in a sequence of length [len]: a
    negative bound counts from the end, and the outcome is clamped to
    [0..len]. *)
Definition slice_bound (len : nat) (i : Z) : nat :=
  if (i <? 0)%Z then Z.to_nat (Z.max 0 (i + Z.of_nat len))
  else Z.to_nat (Z.min i (Z.of_nat len)).

(** [xs[:stop]] and [xs[start:]] *)
Definition slice_until {X : Type} (xs : list X) (stop : Z) : list X :=
  take (slice_bound (length xs) stop) xs.
Definition slice_since {X : Type} (xs : list X) (start : Z) : list X :=
  drop (slice_bound (length xs) start) xs.

(** [[xs[i] for i in ind]] *)
Fixpoint gather {X : Type} (xs : list X) (ind : list nat) : result (list X) :=
  match ind with
  | [] => Ok []
  | i :: ind' => x ← getitem xs i; rest ← gather xs ind'; Ok (x :: rest)
  end.

(** The same on a local that may be [None]. *)
Definition gather_opt {X : Type} (xs : option (list X)) (ind : list nat)
  : result (list X) :=
  match xs with
  | Some l => gather l ind
  | None => match ind with [] => Ok [] | _ => Raise TypeError end
  end.

(** ** Floats: the rounding to binary64 *)

(** [2 ** e] *)
Definition pow2 (e : Z) : Q := (2 ^ e)%Q.

(** [floor(log2(x))] for a positive [x]. *)
Definition ilog2 (x : Q) : Z :=
  let k := (Z.log2 (Qnum x) - Z.log2 (Zpos (Qden x)) - 1)%Z in
  if Qle_bool (pow2 (k + 1)) x then (k + 1)%Z else k.

(** The exponent of the last place of a binary64 number of the magnitude of a
    positive [x]: 53 significant bits, and no finer than the subnormal step
    [2 ** -1074]. *)
Definition ulp_exponent (x : Q) : Z := Z.max (ilog2 x - 52) (-1074).

(** The float that a literal denotes and that an arithmetic operation returns:
    the binary64 number nearest to the exact value [x], a tie going to the
    even significand. The overflow to infinity past the largest binary64
    number is not represented; the properties that could meet it bound their
    inputs. *)
Definition round_double (x : Q) : Q :=
  if Qeq_bool x 0 then 0%Q
  else
    let e := ulp_exponent (Qabs x) in
    (inject_Z (py_round (x / pow2 e)) * pow2 e)%Q.

(** The literal [0.8] of line 10, as it is written; the float it denotes is
    taken where it is multiplied. *)
Definition VAL_PERCENT : Q := 8 # 10.

(** [val_percent * n] for a fraction as it is written and the length [n] of a
    list: the fraction is the float nearest to it, the length is converted to
    a float, which is exact below [2 ** 53], and the product is rounded to a
    float. No list in memory is as long as [2 ** 53]; for such a length the
    product is left unrounded. *)
Definition double_product (val_percent : Q) (n : nat) : Q :=
  let x := (round_double val_percent * inject_Z (Z.of_nat n))%Q in
  if (Z.of_nat n <? 2 ^ 53)%Z then round_double x else x.

(** Line 48: [max(1, int(round(VAL_PERCENT * len(ind))))] *)
Definition n_val_of {X : Type} (val_percent : Q) (ind : list X) : Z :=
  Z.max 1 (py_round (double_product val_percent (length ind))).

(** Line 49: [(ind_train, ind_val)] *)
Definition split_indices {X : Type} (val_percent : Q) (ind : list X)
  : list X * list X :=
  let n_val := n_val_of val_percent ind in
  (slice_until ind (- n_val), slice_since ind (- n_val)).

Definition assert (b : bool) : result unit :=
  if b then Ok tt else Raise AssertionError.

Record split_data (T U : Type) : Type := {
  X_trn : list (slice2d T);
  Y_trn : list (slice2d U);
  X_val : list (slice2d T);
  Y_val : list (slice2d U);
  X_trn_paths : list string;
  X_val_paths : list string
}.

Arguments X_trn {T U} _.
Arguments Y_trn {T U} _.
Arguments X_val {T U} _.
Arguments Y_val {T U} _.
Arguments X_trn_paths {T U} _.
Arguments X_val_paths {T U} _.

Section Main.

Context {A T U : Type}.
(** The casts to [np.float32] (the default) and to [np.uint16]. *)
Variables (float32 : A -> T) (uint16 : A -> U).

(** Lines 41-57 of the script, from the volumes read to the data handed to
    the trainer. *)
Definition main_split (val_percent : Q) (X Y : list (volume A))
    (X_paths Y_paths : list string) : result (split_data T U) :=
  '(X_2d, X_paths_2d) ← convert_2d float32 X (Some X_paths);
  '(Y_2d, Y_paths_2d) ← convert_2d uint16 Y (Some Y_paths);
  _ ← assert (length X_2d =? length Y_2d)%nat;
  let ind := py_range (length X_2d) in
  let '(ind_train, ind_val) := split_indices val_percent ind in
  X_val ← gather X_2d ind_val;
  Y_val ← gather Y_2d ind_val;
  X_trn ← gather X_2d ind_train;
  Y_trn ← gather Y_2d ind_train;
  X_trn_paths ← gather_opt X_paths_2d ind_train;
  X_val_paths ← gather_opt X_paths_2d ind_val;
  Ok {| X_trn := X_trn; Y_trn := Y_trn; X_val := X_val; Y_val := Y_val;
        X_trn_paths := X_trn_paths; X_val_paths := X_val_paths |}.

End Main.

(** ** [plots.py]: scores, numpy reductions *)

(** A float score: a number, or the not-a-number of an undefined quotient. *)
Inductive score : Type :=
| Num (q : Q)
| NaN.

Definition is_nan (s : score) : bool :=
  match s with NaN => true | Num _ => false end.

(** The float comparison [a <= b]: false as soon as one side is not a number. *)
Definition score_le (a b : score) : bool :=
  match a, b with
  | Num x, Num y => Qle_bool x y
  | _, _ => false
  end.

(** The scan of [np.argmax] over floats: [mp] is the running maximum, found at
    [best]; [i] is the index of the head of the rest. A later element replaces
    the maximum only when it is not [<=] it, and the scan stops at the first
    not-a-number. *)
Fixpoint argmax_scan (mp : score) (best i : nat) (rest : list score) : nat :=
  match rest with
  | [] => best
  | x :: rest' =>
      if negb (score_le x mp)
      then (if is_nan x then i else argmax_scan x i (S i) rest')
      else argmax_scan mp best (S i) rest'
  end.

Definition np_argmax (a : list score) : result nat :=
  match a with
  | [] => Raise ValueError
  | x :: rest => if is_nan x then Ok 0%nat else Ok (argmax_scan x 0 1 rest)
  end.

(** [np.max]: the maximum, not-a-number as soon as one element is. *)
Definition score_max (a b : score) : score :=
  if is_nan a then a else if is_nan b then b else if score_le a b then b else a.

Definition np_max (a : list score) : result score :=
  match a with
  | [] => Raise ValueError
  | x :: rest => Ok (fold_left score_max rest x)
  end.

(** [np.where(image > threshold, 1, 0)] on the flattened map. *)
Definition binarize (image : list Q) (threshold : Q) : list Z :=
  map (fun v => if Qle_bool v threshold then 0%Z else 1%Z) image.

(** [np.arange(0, 1, 0.025)]: [ceil(1 / 0.025) = 40] floats, the [i]-th the
    float product of [i] and the float [0.025] (added to the start, 0). *)
Definition default_threshold_range : list Q :=
  map (fun i => round_double (inject_Z (Z.of_nat i) * round_double (25 # 1000)))
    (seq 0 40).

(** ** [plots.py]: the plotting libraries as seen from the module *)

(** A value of [matplotlib.rcParams]: a colour or a colour cycle. *)
Inductive rc_value : Type :=
| Color (c : string)
| Cycle (cs : list string).

Abbreviation rcParams := (gmap string rc_value).

(** A table of named columns, as [dataset_matching_stats_to_df] builds it. *)
Abbreviation dataframe := (gmap string (list Q)).

Inductive axes : Set := ax1 | ax2.

(** The text of a formatted annotation, with the numbers it formats. *)
Inductive caption : Type :=
| MaxDiceAt (t : Q)
| MaxOf (metric : string) (value : score) (t : Q).

(** The calls made into the plotting libraries, in the order they are made. *)
Inductive cmd : Type :=
| Figure (w h : Z)                      (* plt.figure(figsize=(w, h)) *)
| Subplots (nrows ncols : nat) (w h dpi : Z) (style : rcParams)
                                        (* plt.subplots, under the globals read *)
| Suptitle (s : string) (fontsize : Z)  (* fig.suptitle *)
| Plot (xs : list Q) (ys : list score) (label : string)   (* plt.plot *)
| Lineplot (ax : axes) (xs ys : list Q) (label : string)  (* sns.lineplot *)
| Axvline (x : Q)                       (* plt.axvline(x, ...) *)
| Text (x y : Q) (t : caption)          (* plt.text(x, y, t, ...) *)
| Xlabel (s : string)                   (* plt.xlabel *)
| Ylabel (s : string)                   (* plt.ylabel *)
| Title (s : string)                    (* plt.title *)
| Legend (fontsize : Z)                 (* plt.legend *)
| AxSet (ax : axes) (with_ylim : bool)  (* ax.set(xlim, [ylim,] xticks) *)
| AxLabels (ax : axes) (xlabel ylabel : string) (fontsize : Z)
                                        (* ax.set_xlabel, ax.set_ylabel *)
| AxFinish (ax : axes) (fontsize : Z)   (* spines, tick_params, grid, legend *)
| Despine                               (* sns.despine *)
| ShowFigure                            (* plt.show() *)
| PrintLine (t : caption).              (* print(...) *)

(** What a call can change: the styling globals and the drawing so far. *)
Record world : Type := {
  rc : rcParams;
  drawn : list cmd
}.

(** A call into this module: it ends by returning or raising, in a new world. *)
Definition io (R : Type) : Type := world -> result R * world.

#[global] Instance io_ret : MRet io := fun _ a w => (Ok a, w).
#[global] Instance io_bind : MBind io := fun _ _ f m w =>
  match m w with
  | (Ok a, w') => f a w'
  | (Raise e, w') => (Raise e, w')
  end.

Definition lift {R : Type} (r : result R) : io R := fun w => (r, w).

Definition draw (c : cmd) : io unit :=
  fun w => (Ok tt, {| rc := rc w; drawn := drawn w ++ [c] |}).

Definition get_rc : io rcParams := fun w => (Ok (rc w), w).

Definition put_rc (r : rcParams) : io unit :=
  fun w => (Ok tt, {| rc := r; drawn := drawn w |}).

(** [for x in xs: body] *)
Fixpoint for_ {X : Type} (xs : list X) (body : X -> io unit) : io unit :=
  match xs with
  | [] => mret tt
  | x :: xs' => _ ← body x; for_ xs' body
  end.

(** [sns.set_palette(palette)] sets the colour cycle, for good. *)
Definition set_palette (palette : list string) : io unit :=
  r ← get_rc; put_rc (<["axes.prop_cycle" := Cycle palette]> r).

(** The two context managers the module hands to [with]. *)
Inductive context_manager : Type :=
| style_context (sheet : rcParams)
| nullcontext.

(** [with cm: body]. [plt.style.context] saves the globals on entry, applies
    the sheet over them, and puts the saved ones back on every exit. *)
Definition with_ {R : Type} (cm : context_manager) (body : io R) : io R :=
  match cm with
  | nullcontext => body
  | style_context sheet => fun w =>
      let saved := rc w in
      let '(r, w') := body {| rc := sheet ∪ saved; drawn := drawn w |} in
      (r, {| rc := saved; drawn := drawn w' |})
  end.

(** [sns.lineplot(data=stats, x=..., y=..., ax=..., label=...)]: both columns
    must be in the table. *)
Definition lineplot (data : dataframe) (x y : string) (ax : axes) (label : string)
  : io unit :=
  match data !! x, data !! y with
  | Some xs, Some ys => draw (Lineplot ax xs ys label)
  | _, _ => lift (Raise ValueError)
  end.

(** [plt.subplots], which reads the styling globals in force; the figure is
    known by the position of this call in the drawing. *)
Definition subplots (nrows ncols : nat) (w h dpi : Z) : io nat :=
  fun w0 =>
    (Ok (length (drawn w0)),
     {| rc := rc w0;
        drawn := drawn w0 ++ [Subplots nrows ncols w h dpi (rc w0)] |}).

(** [plt.plot(xs, ys, label=...)]: the two sequences must be as long. *)
Definition plot (xs : list Q) (ys : list score) (label : string) : io unit :=
  if (length xs =? length ys)%nat then draw (Plot xs ys label)
  else lift (Raise ValueError).

(** ** [plots.py]: the configuration constants *)

Definition COLORMAP_LIGHT : list string :=
  ["#F72585"; "#7209B7"; "#4361EE"; "#4CC9F0"; "#3A0CA3";
   "#FF0000"; "#F0A500"; "#FFD700"; "#FF7A00"; "#FF4D00"].

Definition DPI : Z := 200.
Definition FONT_SIZE : Z := 15.
(** [int(x)] on a float: truncation toward zero. *)
Definition py_int (x : Q) : Z := Z.quot (Qnum x) (Zpos (Qden x)).
Definition TITLE_FONT_SIZE : Z := py_int (inject_Z FONT_SIZE * (175 # 100)).
Definition LABEL_FONT_SIZE : Z := py_int (inject_Z FONT_SIZE * (125 # 100)).
Definition LEGEND_FONT_SIZE : Z := py_int (inject_Z FONT_SIZE * (75 # 100)).

Definition default_stats_list : list string :=
  ["precision"; "recall"; "accuracy"; "f1"; "mean_true_score";
   "mean_matched_score"; "panoptic_quality"].

(** The four score sequences of a sweep, in the order they are returned. *)
Definition scores : Type := (list score * list score * list score * list score)%type.

Section Plots.

(** What [plots.py] imports from [utils], which is not part of the sources
    at hand: the colour inversion, the four metrics on a ground truth and a
    binarized prediction (flattened), and the conversion of a collection of
    matching-statistics records to a table. *)
Variable invert_color : string -> string.
Variables dice_coeff intersection_over_union precision recall
  : list Z -> list Z -> score.
Context {Stats : Type}.
Variable dataset_matching_stats_to_df : Stats -> result dataframe.

(** The module-level switch of line 35, and the ["dark_background"] style
    sheet of the plotting library. *)
Variable DARK_MODE : bool.
Variable dark_background : rcParams.

Definition COLORMAP_DARK : list string := map invert_color COLORMAP_LIGHT.
Definition COLORMAP : list string :=
  if DARK_MODE then COLORMAP_DARK else COLORMAP_LIGHT.

Definition get_style_context : io context_manager :=
  _ ← set_palette COLORMAP;
  if DARK_MODE then mret (style_context dark_background)
  else mret nullcontext.

(** The body of the loop of lines 85-90. *)
Definition sweep_step (image : list Q) (gt : list Z) (st : scores)
    (threshold : Q) : scores :=
  let '(dice_scores, iou_scores, precision_scores, recall_scores) := st in
  let pred := binarize image threshold in
  (dice_scores ++ [dice_coeff gt pred],
   iou_scores ++ [intersection_over_union gt pred],
   precision_scores ++ [precision gt pred],
   recall_scores ++ [recall gt pred]).

Definition sweep (image : list Q) (gt : list Z) (threshold_range : list Q)
  : scores :=
  fold_left (sweep_step image gt) threshold_range ([], [], [], []).

Definition plot_model_performance_semantic (image : list Q) (gt : list Z)
    (name : string) (threshold_range : option (list Q)) (print_max : bool)
  : io scores :=
  let threshold_range :=
    match threshold_range with
    | None => default_threshold_range
    | Some t => t
    end in
  let '(dice_scores, iou_scores, precision_scores, recall_scores) :=
    sweep image gt threshold_range in
  _ ← draw (Figure 7 7);
  _ ← plot threshold_range dice_scores "Dice";
  _ ← plot threshold_range iou_scores "IoU";
  _ ← plot threshold_range precision_scores "Precision";
  _ ← plot threshold_range recall_scores "Recall";
  k ← lift (np_argmax dice_scores);
  optimal_threshold ← lift (getitem threshold_range k);
  _ ← draw (Axvline optimal_threshold);
  _ ← draw (Text (optimal_threshold - (25 # 100)) 0 (MaxDiceAt optimal_threshold));
  _ ← draw (Xlabel "Threshold");
  _ ← draw (Ylabel "Score");
  _ ← draw (Title ("Model performance for " +:+ name));
  _ ← draw (Legend LEGEND_FONT_SIZE);
  _ ← draw ShowFigure;
  _ ← (if print_max then
         m ← lift (np_max dice_scores);
         k ← lift (np_argmax dice_scores);
         t ← lift (getitem threshold_range k);
         _ ← draw (PrintLine (MaxOf "Dice" m t));
         m ← lift (np_max iou_scores);
         k ← lift (np_argmax iou_scores);
         t ← lift (getitem threshold_range k);
         draw (PrintLine (MaxOf "IoU" m t))
       else mret tt);
  mret (dice_scores, iou_scores, precision_scores, recall_scores).

Definition plot_performance (taus : list Q) (stats : Stats) (name : string)
    (metric : string) (stats_list : list string) : io nat :=
  cm ← get_style_context;
  with_ cm (
    _ ← set_palette COLORMAP;
    fig ← subplots 1 2 16 6 DPI;
    _ ← draw (Suptitle name TITLE_FONT_SIZE);
    stats ← lift (dataset_matching_stats_to_df stats);
    _ ← for_ stats_list (fun m => lineplot stats "thresh" m ax1 m);
    _ ← draw (AxSet ax1 true);
    _ ← draw (AxLabels ax1 (metric +:+ " threshold $\tau$") "Metric value"
                LABEL_FONT_SIZE);
    _ ← draw (AxFinish ax1 LEGEND_FONT_SIZE);
    _ ← for_ ["fp"; "tp"; "fn"] (fun m => lineplot stats "thresh" m ax2 m);
    _ ← draw (AxSet ax2 false);
    _ ← draw (AxLabels ax2 (metric +:+ " threshold $\tau$") "Number #"
                LABEL_FONT_SIZE);
    _ ← draw (AxFinish ax2 LEGEND_FONT_SIZE);
    _ ← draw Despine;
    mret fig).

End Plots.

(** ** Reading the loops of the converter as one pass *)

(** The turns of the nested loops of [convert_2d], in order: the volume index,
    the slice index and the slice. *)
Fixpoint turns_from {T : Type} (i : nat) (images : list (list T))
  : list (nat * nat * T) :=
  match images with
  | [] => []
  | image :: images' =>
      map (fun '(j, s) => (i, j, s)) (enumerate image) ++ turns_from (S i) images'
  end.

Definition turns {T : Type} (images : list (list T)) : list (nat * nat * T) :=
  turns_from 0 images.

(** The source identifier a turn reads, when there is one. *)
Definition source_at (names : list string) (i : nat) : string :=
  default "" (names !! i).

(** ** [utils]: the four per-pixel metrics *)

Module Utils.

(** Modelled from the spec: [np.sum] over a flattened integer mask, which
    [utils] (absent from the sources) applies to count the pixels of a binary
    mask. *)
Definition np_sum (a : list Z) : Z := fold_right Z.add 0%Z a.

(** Modelled from the spec: the overlap of two binary masks, the number of
    pixels set in both. *)
Definition overlap (a b : list Z) : Z := np_sum (zip_with Z.mul a b).

(** Modelled from the spec: the quotient of two pixel counts as a float; with
    a zero denominator it is not a number. *)
Definition ratio (n d : Z) : score :=
  if (d =? 0)%Z then NaN else Num (inject_Z n / inject_Z d).

(** Modelled from the spec: [utils.dice_coeff], the Dice coefficient
    2×overlap / (|A|+|B|) between two binary masks. *)
Definition dice_coeff (y_true y_pred : list Z) : score :=
  ratio (2 * overlap y_true y_pred) (np_sum y_true + np_sum y_pred).

(** Modelled from the spec: [utils.intersection_over_union], |A∩B| / |A∪B|
    between two binary masks. *)
Definition intersection_over_union (y_true y_pred : list Z) : score :=
  ratio (overlap y_true y_pred)
        (np_sum y_true + np_sum y_pred - overlap y_true y_pred).

(** Modelled from the spec: [utils.precision], which the spec names as a
    per-pixel classification metric without a formula; the usual one is
    taken, the overlap over the pixels predicted. *)
Definition precision (y_true y_pred : list Z) : score :=
  ratio (overlap y_true y_pred) (np_sum y_pred).

(** Modelled from the spec: [utils.recall], named likewise; the overlap over
    the pixels of the ground truth. *)
Definition recall (y_true y_pred : list Z) : score :=
  ratio (overlap y_true y_pred) (np_sum y_true).

End Utils.

(** ** Notions used to state the properties *)

(** [p] is the binary64 number nearest to [x], a tie going to the even
    significand: [p] is [m * 2 ** e] on the grid of step [2 ** e] that
    binary64 has at the magnitude of [x] (53 significant bits, steps no finer
    than [2 ** -1074]), within half a step of [x]. *)
Definition nearest_double (x p : Q) : Prop :=
  (x == 0 /\ p == 0)%Q
  \/ exists m e : Z,
       (p == inject_Z m * pow2 e)%Q
       /\ (-1074 <= e)%Z
       /\ (e = (-1074)%Z \/ (pow2 (e + 52) <= Qabs x)%Q)
       /\ (Qabs x < pow2 (e + 53))%Q
       /\ (Z.abs m <= 2 ^ 53)%Z
       /\ (Qabs (p - x) <= pow2 (e - 1))%Q
       /\ ((Qabs (p - x) == pow2 (e - 1))%Q -> Z.even m = true).

(** [r] is the integer nearest to [p], a tie going to the even one. *)
Definition nearest_integer (p : Q) (r : Z) : Prop :=
  (inject_Z r - (1 # 2) <= p <= inject_Z r + (1 # 2))%Q
  /\ ((p == inject_Z r - (1 # 2) \/ p == inject_Z r + (1 # 2))%Q -> Z.even r = true).

(** The order in which [np.argmax] and [np.max] see floats: numbers by value,
    and not-a-number above every number. *)
Definition score_below (a b : score) : bool :=
  match b with
  | NaN => true
  | Num y => match a with NaN => false | Num x => Qle_bool x y end
  end.

(** [k] is the lowest index of a maximum of [a]. *)
Definition is_first_max (a : list score) (k : nat) : Prop :=
  exists sk, a !! k = Some sk
    /\ (forall j s, a !! j = Some s -> score_below s sk = true)
    /\ (forall j s, (j < k)%nat -> a !! j = Some s -> score_below sk s = false).

(** A call that leaves the styling globals alone and only adds to the
    drawing. *)
Definition frames {R : Type} (m : io R) : Prop :=
  forall w, rc (m w).2 = rc w /\ exists new, drawn (m w).2 = drawn w ++ new.

(** A table with one row per threshold and every column the plots read. *)
Definition sample_table : dataframe :=
  list_to_map
    (map (fun c => (c, [1 # 2; 7 # 10]%Q))
       ("thresh" :: default_stats_list ++ ["fp"; "tp"; "fn"])).

(** A call that returns, whatever the world, and on the way leaves the
    styling globals alone and only adds to the drawing. *)
Definition succeeds {R : Type} (m : io R) : Prop :=
  forall w, exists a new,
    m w = (Ok a, {| rc := rc w; drawn := drawn w ++ new |}).

From Stdlib Require Import DecimalNat.

(** ** [plots.py]: the multi-model comparison *)

(** [c.upper()] on one character of an ASCII identifier. *)
Definition upper_char (c : ascii) : ascii :=
  let n := nat_of_ascii c in
  if (97 <=? n)%nat && (n <=? 122)%nat then ascii_of_nat (n - 32) else c.

(** [s.replace("_", " ")] *)
Fixpoint replace_underscores (s : string) : string :=
  match s with
  | EmptyString => EmptyString
  | String c s' =>
      String (if Ascii.eqb c "_"%char then " "%char else c) (replace_underscores s')
  end.

(** Line 213: [(stat[0].upper() + stat[1:]).replace("_", " ")]; the subscript
    raises on an empty identifier. *)
Definition stat_title (stat : string) : result string :=
  match stat with
  | EmptyString => Raise IndexError
  | String c rest => Ok (replace_underscores (String (upper_char c) rest))
  end.

(** Seven-bit characters only, as the identifiers of statistics are. *)
Definition is_ascii7 (s : string) : Prop :=
  Forall (fun c => (nat_of_ascii c < 128)%nat) (list_ascii_of_string s).

Section Comparison.

Variable invert_color : string -> string.
Context {Stats : Type}.
Variable dataset_matching_stats_to_df : Stats -> result dataframe.
Variable DARK_MODE : bool.
Variable dark_background : rcParams.

(** Whether the plotting library takes a vector of abscissas against a table;
    the check is the library's own and is left open. *)
Variable vector_ok : list Q -> dataframe -> bool.

(** Lines 215-217: [[dataset_matching_stats_to_df(stats) for stats in
    stats_list]], every conversion before any use. *)
Fixpoint convert_all (stats_list : list Stats) : result (list dataframe) :=
  match stats_list with
  | [] => Ok []
  | stats :: rest =>
      df ← dataset_matching_stats_to_df stats;
      dfs ← convert_all rest;
      Ok (df :: dfs)
  end.

(** [sns.lineplot(data=stats, x=taus, y=stat, ax=ax, label=...)]: the column
    must be in the table and the vector must be taken. The only axes of the
    figure are recorded as [ax1]. *)
Definition lineplot_vector (data : dataframe) (x : list Q) (y : string)
    (label : string) : io unit :=
  match data !! y with
  | Some ys =>
      if vector_ok x data then draw (Lineplot ax1 x ys label)
      else lift (Raise ValueError)
  | None => lift (Raise ValueError)
  end.

(** Lines 206-249. The presentation calls after the loop (limits, ticks,
    labels, spines, despine, grid, legend) are recorded by the grouped
    commands of [cmd]; the function returns nothing. *)
Definition plot_stat_comparison (taus : list Q) (stats_list : list Stats)
    (model_names : list string) (stat metric : string) : io unit :=
  cm ← get_style_context invert_color DARK_MODE dark_background;
  with_ cm (
    _ ← set_palette (COLORMAP invert_color DARK_MODE);
    _ ← subplots 1 1 12 6 DPI;
    title ← lift (stat_title stat);
    _ ← draw (Suptitle (title +:+ " comparison") TITLE_FONT_SIZE);
    stats_list ← lift (convert_all stats_list);
    _ ← for_ (enumerate stats_list) (fun '(i, stats) =>
           label ← lift (getitem model_names i);
           lineplot_vector stats taus stat label);
    _ ← draw (AxSet ax1 true);
    _ ← draw (AxLabels ax1 (metric +:+ " threshold $\tau$") title LABEL_FONT_SIZE);
    _ ← draw Despine;
    _ ← draw (AxFinish ax1 FONT_SIZE);
    mret tt).

End Comparison.

(** ** More notions used to state the properties *)

(** A curve is among the commands. *)
Definition is_curve (c : cmd) : bool :=
  match c with
  | Lineplot _ _ _ _ => true
  | _ => false
  end.

(** Every volume with at least one slice has a source identifier. *)
Definition identifiers_cover {T : Type} (images : list (list T)) (names : list string)
  : Prop :=
  forall i image, images !! i = Some image -> image <> [] -> (i < length names)%nat.

(** Every column the matching-statistics plot reads is in the table. *)
Definition has_columns (df : dataframe) (stats_list : list string) : Prop :=
  forall c, In c ("thresh" :: stats_list ++ ["fp"; "tp"; "fn"]) -> is_Some (df !! c).

(** The values of a column of a table, none when the column is missing. *)
Definition column (df : dataframe) (c : string) : list Q := default [] (df !! c).

(** * Properties *)

(** ** The model on concrete inputs *)

Example stem_tif : Pathlib.stem "/data/TRAINING/c1_visual.tif" = "c1_visual".
Proof. reflexivity. Qed.

Example stem_hidden : Pathlib.stem "labels/.hidden" = ".hidden".
Proof. reflexivity. Qed.

Example stem_two_suffixes : Pathlib.stem "a/b.tar.gz" = "b.tar".
Proof. reflexivity. Qed.

Example convert_2d_two_volumes :
  convert_2d Z.of_nat [[[[1; 2]]; [[3; 4]]]; [[[5; 6]]]] (Some ["x/a.tif"; "x/b.tif"])
  = Ok ([[[1; 2]]; [[3; 4]]; [[5; 6]]]%Z, Some ["a_0.tif"; "a_1.tif"; "b_0.tif"]).
Proof. reflexivity. Qed.

(** Fewer identifiers than volumes: the subscript of line 23 raises. *)
Example convert_2d_short_names :
  convert_2d Z.of_nat [[[[1]]]; [[[2]]]] (Some ["x/a.tif"])
  = (Raise IndexError : result (list (slice2d Z) * option (list string))).
Proof. reflexivity. Qed.

Example font_sizes : (TITLE_FONT_SIZE, LABEL_FONT_SIZE, LEGEND_FONT_SIZE) = (26, 18, 11)%Z.
Proof. reflexivity. Qed.

Example default_thresholds :
  length default_threshold_range = 40%nat
  /\ default_threshold_range !! 0%nat = Some 0%Q
  /\ (Qred <$> default_threshold_range !! 20%nat) = Some (1 # 2)%Q
  /\ (Qred <$> default_threshold_range !! 3%nat)
     = Some (1351079888211149 # 18014398509481984)%Q.
Proof. vm_compute. auto. Qed.

(** The default thresholds are floats: the fourth is above [0.075]. *)
Example default_threshold_is_a_float :
  exists t, default_threshold_range !! 3%nat = Some t /\ (75 # 1000 < t)%Q.
Proof. eexists. split; [reflexivity|]. vm_compute. reflexivity. Qed.

Example argmax_ties : np_argmax [Num (1 # 2); Num 1; Num (2 # 2); Num 0] = Ok 1%nat.
Proof. reflexivity. Qed.

Example argmax_nan : np_argmax [Num (1 # 2); NaN; Num 1; NaN] = Ok 1%nat.
Proof. reflexivity. Qed.


(** ** The [result] monad and the loops *)

Lemma for_each_app {X S : Type} (xs ys : list X) (body : X -> S -> result S) (s : S) :
  for_each (xs ++ ys) body s = (s' ← for_each xs body s; for_each ys body s').
Proof.
  revert s. induction xs as [|x xs IH]; intros s; simpl; [reflexivity|].
  destruct (body x s) as [s1|e]; simpl; [apply IH | reflexivity].
Qed.

(** A property of the locals that each turn of a loop keeps is kept by the
    loop. *)
Lemma for_each_invariant {X S : Type} (P : S -> Prop) (xs : list X)
    (body : X -> S -> result S) :
  (forall x s s', P s -> body x s = Ok s' -> P s') ->
  forall s s', P s -> for_each xs body s = Ok s' -> P s'.
Proof.
  intros Hbody. induction xs as [|x xs IH]; intros s s' Hs; simpl.
  - intros [= <-]. exact Hs.
  - destruct (body x s) as [s1|e] eqn:E; simpl; [|discriminate].
    apply IH. eapply Hbody; eauto.
Qed.

Lemma enumerate_from_length {X : Type} (k : nat) (xs : list X) :
  length (enumerate_from k xs) = length xs.
Proof. revert k. induction xs; intros k; simpl; auto. Qed.

Lemma enumerate_from_lookup {X : Type} (k n : nat) (xs : list X) :
  enumerate_from k xs !! n = (fun x => ((k + n)%nat, x)) <$> xs !! n.
Proof.
  revert k n. induction xs as [|x xs IH]; intros k [|n]; simpl; try reflexivity.
  - by rewrite Nat.add_0_r.
  - rewrite IH. by rewrite Nat.add_succ_r.
Qed.

Lemma enumerate_from_app {X : Type} (k : nat) (xs ys : list X) :
  enumerate_from k (xs ++ ys)
  = enumerate_from k xs ++ enumerate_from (k + length xs) ys.
Proof.
  revert k. induction xs as [|x xs IH]; intros k; simpl.
  - by rewrite Nat.add_0_r.
  - rewrite IH. by rewrite Nat.add_succ_r.
Qed.

(** ** The converter: the nested loops as one pass *)

Lemma nested_loops_flatten {T S : Type} (body : nat -> nat * T -> S -> result S)
    (images : list (list T)) (i0 : nat) (s : S) :
  for_each (enumerate_from i0 images)
    (fun '(i, image) st => for_each (enumerate image) (body i) st) s
  = for_each (turns_from i0 images) (fun '(i, j, x) => body i (j, x)) s.
Proof.
  revert i0 s. induction images as [|image images IH]; intros i0 s; simpl.
  - reflexivity.
  - rewrite for_each_app.
    assert (E : forall l st,
      for_each (map (fun '(j, x) => (i0, j, x)) l)
        (fun '(i, j, x) => body i (j, x)) st = for_each l (body i0) st).
    { induction l as [|[j x] l IHl]; intros st; simpl; [reflexivity|].
      destruct (body i0 (j, x) st); simpl; auto. }
    rewrite E. destruct (for_each (enumerate image) (body i0) s); simpl; auto.
Qed.

(** Every turn reads the slice it names. *)
Lemma turns_from_lookup {T : Type} (images : list (list T)) (i0 i j : nat) (x : T) :
  (i, j, x) ∈ turns_from i0 images ->
  exists image, (i0 <= i)%nat /\ images !! (i - i0)%nat = Some image
                /\ image !! j = Some x.
Proof.
  revert i0. induction images as [|image images IH]; intros i0; simpl.
  - intros H. by apply elem_of_nil in H.
  - rewrite elem_of_app. intros [H|H].
    + apply list_elem_of_fmap in H as [[j' x'] [E H]]. injection E as -> -> ->.
      apply list_elem_of_lookup in H as [n H].
      unfold enumerate in H. rewrite enumerate_from_lookup in H.
      destruct (image !! n) as [y|] eqn:En; simpl in H; [|discriminate].
      injection H as <- <-. exists image. rewrite Nat.sub_diag. simpl. auto.
    + apply IH in H as (im & Hle & Him & Hx). exists im.
      split; [lia|]. split; [|exact Hx].
      replace (i - i0)%nat with (S (i - S i0)) by lia. exact Him.
Qed.

Lemma turns_lookup {T : Type} (images : list (list T)) (i j : nat) (x : T) :
  (i, j, x) ∈ turns images ->
  exists image, images !! i = Some image /\ image !! j = Some x.
Proof.
  intros H. apply turns_from_lookup in H as (im & _ & Him & Hx).
  rewrite Nat.sub_0_r in Him. eauto.
Qed.

(** The indices of the turns depend on the slice counts only. *)
Lemma turns_from_same_shape {T U : Type} (X : list (list T)) (Y : list (list U)) i0 :
  Forall2 (fun x y => length x = length y) X Y ->
  (turns_from i0 X).*1 = (turns_from i0 Y).*1.
Proof.
  intros H. revert i0. induction H as [|x y X Y Hxy _ IH]; intros i0; simpl.
  - reflexivity.
  - rewrite !fmap_app, IH. f_equal.
    unfold enumerate. generalize 0%nat. revert y Hxy.
    induction x as [|a x IHx]; intros [|b y] Hl n; simpl in *; try discriminate.
    + reflexivity.
    + f_equal. apply IHx. lia.
Qed.

Lemma turns_from_volume_bound {T : Type} (images : list (list T)) (i0 i j : nat) (x : T) :
  (i, j, x) ∈ turns_from i0 images -> (i < i0 + length images)%nat.
Proof.
  intros H. apply turns_from_lookup in H as (im & Hle & Him & _).
  apply lookup_lt_Some in Him. lia.
Qed.

Section ConvertFacts.

Context {A B : Type}.
Variable dtype : A -> B.

(** One pass over the turns with identifiers at hand. *)
Lemma convert_turns_named (names : list string) (l : list (nat * nat * slice2d A))
    (acc : list (slice2d B)) (accn : list string) :
  (forall i j x, (i, j, x) ∈ l -> (i < length names)%nat) ->
  for_each l (fun '(i, j, x) => convert_slice dtype (Some names) i (j, x))
    (acc, Some accn)
  = Ok (acc ++ map (fun t => astype dtype t.2) l,
        Some (accn ++ map (fun t => slice_name (source_at names t.1.1) t.1.2) l)).
Proof.
  revert acc accn. induction l as [|[[i j] x] l IH]; intros acc accn Hl; simpl.
  - by rewrite !app_nil_r.
  - assert (Hi : (i < length names)%nat) by (eapply Hl; apply list_elem_of_here).
    apply lookup_lt_is_Some_2 in Hi as [p Hp].
    unfold getitem, source_at. rewrite Hp. simpl.
    rewrite IH by (intros; eapply Hl; apply list_elem_of_further; eauto).
    by rewrite <- !app_assoc.
Qed.

(** One pass over the turns without identifiers. *)
Lemma convert_turns_unnamed (l : list (nat * nat * slice2d A))
    (acc : list (slice2d B)) :
  for_each l (fun '(i, j, x) => convert_slice dtype None i (j, x)) (acc, None)
  = Ok (acc ++ map (fun t => astype dtype t.2) l, None).
Proof.
  revert acc. induction l as [|[[i j] x] l IH]; intros acc; simpl.
  - by rewrite app_nil_r.
  - rewrite IH. by rewrite <- app_assoc.
Qed.

Lemma convert_2d_named (images : list (volume A)) (names : list string) :
  (length images <= length names)%nat ->
  convert_2d dtype images (Some names)
  = Ok (map (fun t => astype dtype t.2) (turns images),
        Some (map (fun t => slice_name (source_at names t.1.1) t.1.2)
                (turns images))).
Proof.
  intros Hlen. unfold convert_2d, enumerate at 1.
  rewrite (nested_loops_flatten (convert_slice dtype (Some names))).
  rewrite convert_turns_named; [reflexivity|].
  intros i j x H. apply turns_from_volume_bound in H.
  unfold volume in *. lia.
Qed.

Lemma convert_2d_unnamed (images : list (volume A)) :
  convert_2d dtype images None
  = Ok (map (fun t => astype dtype t.2) (turns images), None).
Proof.
  unfold convert_2d, enumerate at 1.
  rewrite (nested_loops_flatten (convert_slice dtype None)).
  by rewrite convert_turns_unnamed.
Qed.

(** The slices of the turns are the slices of the volumes, in order. *)
Lemma turns_from_slices {T : Type} (images : list (list T)) (i0 : nat) :
  (turns_from i0 images).*2 = concat images.
Proof.
  revert i0. induction images as [|image images IH]; intros i0; simpl.
  - reflexivity.
  - rewrite fmap_app, IH. f_equal.
    unfold enumerate. generalize 0%nat.
    induction image as [|x image IHi]; intros n; simpl; [reflexivity|].
    f_equal. apply IHi.
Qed.

(** The names component follows the identifiers argument, turn after turn. *)
Lemma convert_slice_names (names : option (list string)) (i : nat)
    (js : nat * slice2d A) (st st' : list (slice2d B) * option (list string)) :
  (match names, st.2 with
   | Some _, Some l => length l = length st.1
   | None, None => True
   | _, _ => False
   end) ->
  convert_slice dtype names i js st = Ok st' ->
  match names, st'.2 with
  | Some _, Some l => length l = length st'.1
  | None, None => True
  | _, _ => False
  end.
Proof.
  destruct js as [j x], st as [acc accn]. unfold convert_slice.
  destruct names as [names|]; simpl.
  - destruct accn as [l|]; [|intros []].
    intros Hl. destruct (getitem names i) as [p|e]; simpl; [|discriminate].
    intros [= <-]. simpl. rewrite !length_app. simpl. lia.
  - destruct accn; [intros []|]. intros _ [= <-]. exact I.
Qed.

End ConvertFacts.

(** ** The converter: what it returns *)

Lemma turns_images {A B : Type} (dtype : A -> B) (images : list (volume A)) :
  map (fun t : nat * nat * slice2d A => astype dtype t.2) (turns images)
  = map (astype dtype) (concat images).
Proof.
  unfold turns. rewrite <- (turns_from_slices images 0).
  rewrite <- list_fmap_compose. reflexivity.
Qed.

(** C3: converting one volume [V] alone, with or without an identifier for
    it, returns exactly [len(V)] 2-D arrays, the [i]-th being [V[i]] cast
    element by element with the target type, in slice order. *)
Theorem convert_2d_single_volume {A B : Type} (dtype : A -> B) (V : volume A) :
  exists out : list (slice2d B),
    convert_2d dtype [V] None = Ok (out, None)
    /\ (forall source rest, exists names_2d,
          convert_2d dtype [V] (Some (source :: rest)) = Ok (out, Some names_2d))
    /\ length out = length V
    /\ forall i, out !! i = map (map dtype) <$> V !! i.
Proof.
  exists (map (astype dtype) V).
  assert (E : map (astype dtype) (concat [V]) = map (astype dtype) V).
  { simpl. by rewrite app_nil_r. }
  split; [|split; [|split]].
  - by rewrite convert_2d_unnamed, turns_images, E.
  - intros source rest. eexists.
    rewrite convert_2d_named by (simpl; lia).
    by rewrite turns_images, E.
  - apply length_map.
  - intros i. apply list_lookup_fmap.
Qed.

(** C10: whenever [convert_2d] returns, its names component is [None] exactly
    when no identifiers were given, and a returned names list is as long as
    the returned list of 2-D images, whatever the slice counts; and it does
    return when no identifiers are given or when there is one per volume. *)
Theorem convert_2d_names_component {A B : Type} (dtype : A -> B)
    (images : list (volume A)) (names : option (list string)) :
  (forall out names_2d,
     convert_2d dtype images names = Ok (out, names_2d) ->
     (names_2d = None <-> names = None)
     /\ forall l, names_2d = Some l -> length l = length out)
  /\ ((forall l, names = Some l -> (length images <= length l)%nat) ->
      returns (convert_2d dtype images names)).
Proof.
  split.
  - intros out names_2d H.
    set (P := fun st : list (slice2d B) * option (list string) =>
                match names, st.2 with
                | Some _, Some l => length l = length st.1
                | None, None => True
                | _, _ => False
                end).
    assert (HP : P (out, names_2d)).
    { unfold convert_2d in H.
      eapply (for_each_invariant P) in H; [exact H| |].
      - intros [i image] s s' Hs Hrun.
        eapply (for_each_invariant P) in Hrun; [exact Hrun| |exact Hs].
        intros js st st' Hst Hstep. eapply convert_slice_names; eauto.
      - unfold P. destruct names; simpl; auto. }
    unfold P in HP. simpl in HP.
    destruct names as [names|], names_2d as [l|]; try contradiction.
    + split; [split; discriminate|]. by intros l' [= <-].
    + split; [tauto|]. discriminate.
  - intros Hlen. destruct names as [names|].
    + rewrite convert_2d_named by (apply Hlen; reflexivity). by eexists.
    + rewrite convert_2d_unnamed. by eexists.
Qed.

Lemma convert_2d_names_component_witness :
  (forall out names_2d,
     convert_2d Z.of_nat [[[[1; 2]]; [[3; 4]]]; []; [[[5; 6]]]]
       (Some ["x/a.tif"; "x/b.tif"; "x/c.tif"]) = Ok (out, names_2d) ->
     (names_2d = None <-> Some ["x/a.tif"; "x/b.tif"; "x/c.tif"] = None)
     /\ forall l, names_2d = Some l -> length l = length out)
  /\ returns (convert_2d Z.of_nat [[[[1; 2]]; [[3; 4]]]; []; [[[5; 6]]]]
                (Some ["x/a.tif"; "x/b.tif"; "x/c.tif"])).
Proof.
  destruct (convert_2d_names_component Z.of_nat [[[[1; 2]]; [[3; 4]]]; []; [[[5; 6]]]]
              (Some ["x/a.tif"; "x/b.tif"; "x/c.tif"])) as [H1 H2].
  split; [exact H1|]. apply H2. intros l [= <-]. simpl. lia.
Defined.

(** What the converter returns with identifiers at hand, slice by slice:
    the [k]-th output and the [k]-th name come from one turn [(i, j)] of the
    loops. *)
Lemma convert_2d_pointwise {A B : Type} (dtype : A -> B)
    (images : list (volume A)) (names : list string) :
  (length images <= length names)%nat ->
  exists out names_2d,
    convert_2d dtype images (Some names) = Ok (out, Some names_2d)
    /\ length out = length (turns images)
    /\ length names_2d = length (turns images)
    /\ forall k i j x, turns images !! k = Some (i, j, x) ->
         exists image source,
           images !! i = Some image /\ image !! j = Some x
           /\ names !! i = Some source
           /\ out !! k = Some (astype dtype x)
           /\ names_2d !! k = Some (slice_name source j).
Proof.
  intros Hlen. do 2 eexists. split; [by apply convert_2d_named|].
  rewrite !length_map. split; [reflexivity|]. split; [reflexivity|].
  intros k i j x Hk.
  assert (Hin : (i, j, x) ∈ turns images) by (eapply list_elem_of_lookup_2; eauto).
  destruct (turns_lookup _ _ _ _ Hin) as (image & Hi & Hj).
  assert (Hs : is_Some (names !! i)).
  { apply lookup_lt_is_Some_2. apply lookup_lt_Some in Hi. unfold volume in *. lia. }
  destruct Hs as [source Hs]. exists image, source.
  rewrite !list_lookup_fmap, Hk. simpl. unfold source_at. rewrite Hs. auto.
Qed.

(** C6, as the code has it: with one source identifier per volume, each
    per-slice identifier is the stem of the identifier of its volume, an
    underscore, the index of the slice within the volume, and the suffix
    [.tif]. *)
Theorem slice_identifier_form {A B : Type} (dtype : A -> B)
    (images : list (volume A)) (names : list string) :
  (length images <= length names)%nat ->
  exists out names_2d,
    convert_2d dtype images (Some names) = Ok (out, Some names_2d)
    /\ length names_2d = length out
    /\ forall k name, names_2d !! k = Some name ->
         exists i j image slice_ source,
           images !! i = Some image /\ image !! j = Some slice_
           /\ names !! i = Some source
           /\ out !! k = Some (astype dtype slice_)
           /\ name = (Pathlib.stem source +:+ "_" +:+ str_of_nat j +:+ ".tif").
Proof.
  intros Hlen.
  destruct (convert_2d_pointwise dtype images names Hlen)
    as (out & names_2d & Hrun & Hlo & Hln & Hpt).
  exists out, names_2d. split; [exact Hrun|]. split; [congruence|].
  intros k name Hk.
  assert (Ht : is_Some (turns images !! k)).
  { apply lookup_lt_is_Some_2. rewrite <- Hln. eapply lookup_lt_Some; eauto. }
  destruct Ht as [[[i j] x] Ht].
  destruct (Hpt k i j x Ht) as (image & source & Hi & Hj & Hs & Ho & Hn).
  exists i, j, image, x, source. repeat split; auto.
  rewrite Hk in Hn. injection Hn as ->. reflexivity.
Qed.

Lemma slice_identifier_form_witness :
  exists out names_2d,
    convert_2d Z.of_nat [[[[1; 2]]; [[3; 4]]]; [[[5; 6]]]] (Some ["x/a.tif"; "x/b.tif"])
    = Ok (out, Some names_2d)
    /\ length names_2d = length out
    /\ forall k name, names_2d !! k = Some name ->
         exists i j image slice_ source,
           [[[[1; 2]]; [[3; 4]]]; [[[5; 6]]]] !! i = Some image
           /\ image !! j = Some slice_
           /\ ["x/a.tif"; "x/b.tif"] !! i = Some source
           /\ out !! k = Some (astype Z.of_nat slice_)
           /\ name = (Pathlib.stem source +:+ "_" +:+ str_of_nat j +:+ ".tif").
Proof.
  apply (slice_identifier_form Z.of_nat [[[[1; 2]]; [[3; 4]]]; [[[5; 6]]]]
           ["x/a.tif"; "x/b.tif"]).
  simpl. lia.
Defined.

(** C6, as stated, fails: the identifier of slice 0 of [img/a.tif] is
    [a_0.tif], not [a_0]. *)
Lemma slice_identifier_without_suffix_fails :
  exists out name,
    convert_2d Z.of_nat [[[[7]]]] (Some ["img/a.tif"]) = Ok (out, Some [name])
    /\ name = "a_0.tif"
    /\ name <> (Pathlib.stem "img/a.tif" +:+ "_" +:+ str_of_nat 0).
Proof.
  exists [[[7%Z]]], "a_0.tif". split; [reflexivity|]. split; [reflexivity|].
  vm_compute. discriminate.
Qed.

(** C4: for image and label volumes in equal number and with equal slice
    counts volume for volume, each with one identifier per volume, both
    conversions return, the four returned sequences are equally long, and at
    every position [k] the image slice, the label slice and their two
    identifiers come from the same volume index [i] and slice index [j]. *)
Theorem paired_conversion_aligned {A A' B B' : Type}
    (float32 : A -> B) (uint16 : A' -> B')
    (X : list (volume A)) (Y : list (volume A')) (X_paths Y_paths : list string) :
  length X_paths = length X ->
  length Y_paths = length Y ->
  Forall2 (fun x y => length x = length y) X Y ->
  exists X_2d X_paths_2d Y_2d Y_paths_2d,
    convert_2d float32 X (Some X_paths) = Ok (X_2d, Some X_paths_2d)
    /\ convert_2d uint16 Y (Some Y_paths) = Ok (Y_2d, Some Y_paths_2d)
    /\ length X_2d = length Y_2d
    /\ length X_paths_2d = length X_2d
    /\ length Y_paths_2d = length Y_2d
    /\ forall k, (k < length X_2d)%nat ->
         exists i j x_vol y_vol x_slice y_slice x_source y_source,
           X !! i = Some x_vol /\ x_vol !! j = Some x_slice
           /\ Y !! i = Some y_vol /\ y_vol !! j = Some y_slice
           /\ X_paths !! i = Some x_source /\ Y_paths !! i = Some y_source
           /\ X_2d !! k = Some (astype float32 x_slice)
           /\ Y_2d !! k = Some (astype uint16 y_slice)
           /\ X_paths_2d !! k = Some (slice_name x_source j)
           /\ Y_paths_2d !! k = Some (slice_name y_source j).
Proof.
  intros HX HY Hshape.
  destruct (convert_2d_pointwise float32 X X_paths) as (X_2d & Xn & HrX & HlX & HnX & HpX);
    [lia|].
  destruct (convert_2d_pointwise uint16 Y Y_paths) as (Y_2d & Yn & HrY & HlY & HnY & HpY);
    [lia|].
  pose proof (turns_from_same_shape X Y 0 Hshape) as Hsame. fold (turns X) (turns Y) in Hsame.
  assert (Hlen : length (turns X) = length (turns Y)).
  { rewrite <- (length_fmap fst (turns X)), Hsame. apply length_fmap. }
  exists X_2d, Xn, Y_2d, Yn. repeat (split; [congruence|]).
  intros k Hk.
  destruct (lookup_lt_is_Some_2 (turns X) k) as [[[i j] x] Hx]; [lia|].
  destruct (lookup_lt_is_Some_2 (turns Y) k) as [[[i' j'] y] Hy]; [lia|].
  assert (Hij : (i, j) = (i', j')).
  { assert (E : (turns X).*1 !! k = (turns Y).*1 !! k) by (by rewrite Hsame).
    rewrite !list_lookup_fmap, Hx, Hy in E. simpl in E. congruence. }
  injection Hij as <- <-.
  destruct (HpX k i j x Hx) as (xv & xs & ? & ? & ? & ? & ?).
  destruct (HpY k i j y Hy) as (yv & ys & ? & ? & ? & ? & ?).
  exists i, j, xv, yv, x, y, xs, ys. repeat split; assumption.
Qed.

Lemma paired_conversion_aligned_witness :
  exists X_2d X_paths_2d Y_2d Y_paths_2d,
    convert_2d Z.of_nat [[[[1; 2]]; [[3; 4]]]; [[[5; 6]]]] (Some ["x/a.tif"; "x/b.tif"])
    = Ok (X_2d, Some X_paths_2d)
    /\ convert_2d Z.of_nat [[[[0; 1]]; [[1; 1]]]; [[[2; 0]]]]
         (Some ["x/labels/a.tif"; "x/labels/b.tif"])
       = Ok (Y_2d, Some Y_paths_2d)
    /\ length X_2d = length Y_2d
    /\ X_paths_2d = ["a_0.tif"; "a_1.tif"; "b_0.tif"]
    /\ Y_paths_2d = ["a_0.tif"; "a_1.tif"; "b_0.tif"].
Proof.
  destruct (paired_conversion_aligned Z.of_nat Z.of_nat
              [[[[1; 2]]; [[3; 4]]]; [[[5; 6]]]] [[[[0; 1]]; [[1; 1]]]; [[[2; 0]]]]
              ["x/a.tif"; "x/b.tif"] ["x/labels/a.tif"; "x/labels/b.tif"])
    as (X_2d & Xn & Y_2d & Yn & HX & HY & Hl & _).
  - reflexivity.
  - reflexivity.
  - repeat constructor.
  - exists X_2d, Xn, Y_2d, Yn. vm_compute in HX, HY.
    injection HX as <- <-. injection HY as <- <-. repeat split; reflexivity.
Defined.

(** ** The split assigner *)

(** Rounding keeps a value of [0..L] in [0..L]. *)
Lemma py_round_bounds (x : Q) (L : Z) :
  (0 <= x)%Q -> (x <= inject_Z L)%Q -> (0 <= py_round x <= L)%Z.
Proof.
  intros H0 HL.
  assert (Hfl0 : (0 <= Qfloor x)%Z).
  { change 0%Z with (Qfloor 0). by apply Qfloor_resp_le. }
  assert (HflL : (Qfloor x <= L)%Z).
  { rewrite <- (Qfloor_Z L). by apply Qfloor_resp_le. }
  assert (Hup : (0 < x - inject_Z (Qfloor x))%Q -> (Qfloor x + 1 <= L)%Z).
  { intros Hpos. cut (Qfloor x < L)%Z; [lia|].
    rewrite Zlt_Qlt. eapply Qlt_le_trans; [|exact HL].
    apply Qlt_minus_iff. exact Hpos. }
  unfold py_round.
  destruct (x - inject_Z (Qfloor x) ?= 1 # 2)%Q eqn:E.
  - apply Qeq_alt in E. destruct (Z.even (Qfloor x)); [lia|].
    split; [lia|]. apply Hup. rewrite E. reflexivity.
  - lia.
  - apply Qgt_alt in E. split; [lia|]. apply Hup.
    eapply Qlt_trans; [|exact E]. reflexivity.
Qed.

(** ** Floats: the rounding to binary64 *)

(** [round] gives an integer within one half, and the even one at a tie. *)
Lemma py_round_cases (x : Q) :
  let r := py_round x in
  (inject_Z r - (1 # 2) <= x <= inject_Z r + (1 # 2))%Q
  /\ ((x == inject_Z r - (1 # 2) \/ x == inject_Z r + (1 # 2))%Q -> Z.even r = true).
Proof.
  pose proof (Qfloor_le x) as Hlo. pose proof (Qlt_floor x) as Hhi.
  rewrite inject_Z_plus in Hhi. change (inject_Z 1) with 1%Q in Hhi.
  unfold py_round. cbv zeta.
  destruct (x - inject_Z (Qfloor x) ?= 1 # 2)%Q eqn:E.
  - apply Qeq_alt in E. destruct (Z.even (Qfloor x)) eqn:Ev.
    + split; [lra|]. intros _. exact Ev.
    + rewrite inject_Z_plus. change (inject_Z 1) with 1%Q. split; [lra|]. intros _.
      rewrite Z.even_add, Ev. reflexivity.
  - apply Qlt_alt in E. split; [lra|]. intros [H|H]; lra.
  - apply Qgt_alt in E. rewrite inject_Z_plus. change (inject_Z 1) with 1%Q.
    split; [lra|]. intros [H|H]; lra.
Qed.

Lemma py_round_le_int (x : Q) (k : Z) : (x <= inject_Z k)%Q -> (py_round x <= k)%Z.
Proof.
  intros H. destruct (py_round_cases x) as [[Hlo _] _].
  destruct (Z_le_gt_dec (py_round x) k) as [?|Hgt]; [assumption|exfalso].
  assert (Hk : (k + 1 <= py_round x)%Z) by lia.
  rewrite Zle_Qle, inject_Z_plus in Hk. change (inject_Z 1) with 1%Q in Hk. lra.
Qed.

Lemma py_round_ge_int (x : Q) (k : Z) : (inject_Z k <= x)%Q -> (k <= py_round x)%Z.
Proof.
  intros H. destruct (py_round_cases x) as [[_ Hhi] _].
  destruct (Z_le_gt_dec k (py_round x)) as [?|Hgt]; [assumption|exfalso].
  assert (Hk : (py_round x + 1 <= k)%Z) by lia.
  rewrite Zle_Qle, inject_Z_plus in Hk. change (inject_Z 1) with 1%Q in Hk. lra.
Qed.

Lemma pow2_pos (e : Z) : (0 < pow2 e)%Q.
Proof. apply Qpower_0_lt. reflexivity. Qed.

Lemma pow2_add (a b : Z) : (pow2 (a + b) == pow2 a * pow2 b)%Q.
Proof. apply Qpower_plus. discriminate. Qed.

Lemma pow2_le (a b : Z) : (a <= b)%Z -> (pow2 a <= pow2 b)%Q.
Proof. intros H. apply Qpower_le_compat_l; [exact H|]. discriminate. Qed.

Lemma pow2_lt (a b : Z) : (a < b)%Z -> (pow2 a < pow2 b)%Q.
Proof. intros H. apply Qpower_lt_compat_l; [exact H|]. reflexivity. Qed.

Lemma pow2_nonneg_Z (a : Z) : (0 <= a)%Z -> (pow2 a == inject_Z (2 ^ a))%Q.
Proof. intros H. unfold pow2. rewrite (Zpower_Qpower 2 a H). reflexivity. Qed.

Lemma ilog2_bounds (x : Q) :
  (0 < x)%Q -> (pow2 (ilog2 x) <= x)%Q /\ (x < pow2 (ilog2 x + 1))%Q.
Proof.
  intros Hx. destruct x as [n d].
  assert (Hn : (0 < n)%Z).
  { unfold Qlt in Hx. simpl in Hx. lia. }
  pose proof (Z.log2_spec n Hn) as [Hn1 Hn2].
  pose proof (Z.log2_spec (Zpos d) (Pos2Z.is_pos d)) as [Hd1 Hd2].
  pose proof (Z.log2_nonneg n) as Hln. pose proof (Z.log2_nonneg (Zpos d)) as Hld.
  set (ln := Z.log2 n) in *. set (ld := Z.log2 (Zpos d)) in *.
  assert (Hxd : ((n # d) * inject_Z (Zpos d) == inject_Z n)%Q).
  { unfold Qeq. simpl. rewrite Pos.mul_1_r. ring. }
  assert (HA : (pow2 (ln - ld - 1) <= n # d)%Q).
  { apply (Qmult_le_r _ _ (pow2 (ld + 1))); [apply pow2_pos|].
    rewrite <- pow2_add. replace (ln - ld - 1 + (ld + 1))%Z with ln by lia.
    rewrite (pow2_nonneg_Z ln Hln).
    apply Qle_trans with (inject_Z n); [rewrite <- Zle_Qle; exact Hn1|].
    rewrite <- Hxd. apply Qmult_le_l; [exact Hx|].
    rewrite (pow2_nonneg_Z (ld + 1)) by lia. rewrite <- Zle_Qle.
    replace (ld + 1)%Z with (Z.succ ld) by lia. lia. }
  assert (HB : (n # d < pow2 (ln - ld - 1 + 2))%Q).
  { apply (Qmult_lt_r _ _ (pow2 ld)); [apply pow2_pos|].
    rewrite <- pow2_add. replace (ln - ld - 1 + 2 + ld)%Z with (ln + 1)%Z by lia.
    rewrite (pow2_nonneg_Z (ln + 1)) by lia.
    apply Qle_lt_trans with (inject_Z n).
    - rewrite <- Hxd. apply Qmult_le_l; [exact Hx|].
      rewrite (pow2_nonneg_Z ld Hld). rewrite <- Zle_Qle. exact Hd1.
    - rewrite <- Zlt_Qlt. replace (ln + 1)%Z with (Z.succ ln) by lia. exact Hn2. }
  unfold ilog2. simpl Qnum. simpl Qden. fold ln ld.
  destruct (Qle_bool (pow2 (ln - ld - 1 + 1)) (n # d)) eqn:E.
  - apply Qle_bool_iff in E. split; [exact E|].
    replace (ln - ld - 1 + 1 + 1)%Z with (ln - ld - 1 + 2)%Z by lia. exact HB.
  - split; [exact HA|]. apply Qnot_le_lt. intros H. apply Qle_bool_iff in H. congruence.
Qed.

(** Rounding to a double does not cross an integer below [2 ** 53]. *)
Lemma round_double_between (x : Q) (c : Z) :
  (0 <= x)%Q -> (x <= inject_Z c)%Q -> (c < 2 ^ 53)%Z ->
  (0 <= round_double x)%Q /\ (round_double x <= inject_Z c)%Q.
Proof.
  intros H0 Hc Hlt. unfold round_double.
  destruct (Qeq_bool x 0) eqn:E.
  - split; [apply Qle_refl|]. apply Qeq_bool_iff in E. rewrite <- E. exact Hc.
  - assert (Hx : (0 < x)%Q).
    { apply Qle_lteq in H0 as [H0|H0]; [exact H0|].
      symmetry in H0. apply Qeq_bool_iff in H0. congruence. }
    assert (Habs : Qabs x = x).
    { destruct x as [n d]. unfold Qabs. f_equal. apply Z.abs_eq.
      unfold Qlt in Hx. simpl in Hx. lia. }
    rewrite Habs. set (e := ulp_exponent x).
    destruct (ilog2_bounds x Hx) as [Hlo _].
    assert (He : (e <= 0)%Z).
    { unfold e, ulp_exponent. apply Z.max_lub; [|lia].
      destruct (Z_le_gt_dec (ilog2 x) 52) as [?|Hgt]; [lia|exfalso].
      assert (H53 : (pow2 53 <= x)%Q).
      { eapply Qle_trans; [|exact Hlo]. apply pow2_le. lia. }
      rewrite (pow2_nonneg_Z 53) in H53 by lia.
      assert (Hcc : (inject_Z (2 ^ 53) <= inject_Z c)%Q) by (eapply Qle_trans; eauto).
      rewrite <- Zle_Qle in Hcc. lia. }
    assert (Hinv : (pow2 (- e) * pow2 e == 1)%Q).
    { rewrite <- pow2_add. replace (- e + e)%Z with 0%Z by lia. reflexivity. }
    assert (Hdiv : forall y, (y / pow2 e == y * pow2 (- e))%Q).
    { intros y. unfold Qdiv. apply Qmult_comp; [reflexivity|].
      unfold pow2. rewrite Qpower_opp. reflexivity. }
    split.
    + apply Qmult_le_0_compat; [|apply Qlt_le_weak, pow2_pos].
      rewrite <- (Zle_Qle 0). apply py_round_ge_int. rewrite Hdiv.
      apply Qmult_le_0_compat; [exact H0|apply Qlt_le_weak, pow2_pos].
    + assert (Hm : (py_round (x / pow2 e) <= c * 2 ^ (- e))%Z).
      { apply py_round_le_int. rewrite Hdiv, inject_Z_mult.
        rewrite <- (pow2_nonneg_Z (- e)) by lia.
        apply Qmult_le_compat_r; [exact Hc|apply Qlt_le_weak, pow2_pos]. }
      rewrite Zle_Qle, inject_Z_mult, <- (pow2_nonneg_Z (- e)) in Hm by lia.
      apply Qle_trans with (inject_Z c * pow2 (- e) * pow2 e)%Q.
      * apply Qmult_le_compat_r; [exact Hm|apply Qlt_le_weak, pow2_pos].
      * rewrite <- Qmult_assoc, Hinv, Qmult_1_r. apply Qle_refl.
Qed.

Lemma Qabs_nonzero (x : Q) : Qeq_bool x 0 = false -> (0 < Qabs x)%Q.
Proof.
  intros E0. pose proof (Qabs_nonneg x) as H. apply Qle_lteq in H as [H|H]; [exact H|].
  exfalso. assert (Hz : (x == 0)%Q).
  { apply Qle_antisym.
    - apply Qle_trans with (Qabs x); [apply Qle_Qabs|rewrite <- H; apply Qle_refl].
    - assert (H' : (- x <= 0)%Q).
      { apply Qle_trans with (Qabs (- x)); [apply Qle_Qabs|].
        rewrite Qabs_opp, <- H. apply Qle_refl. }
      lra. }
  apply Qeq_bool_iff in Hz. congruence.
Qed.

(** [round_double] gives the nearest double. *)
Lemma round_double_nearest (x : Q) : nearest_double x (round_double x).
Proof.
  unfold round_double. destruct (Qeq_bool x 0) eqn:E0.
  - left. apply Qeq_bool_iff in E0. split; [exact E0|reflexivity].
  - right.
    pose proof (Qabs_nonzero x E0) as Hx.
    set (e := ulp_exponent (Qabs x)).
    set (E := pow2 e). set (y := (x / E)%Q). set (m := py_round y).
    assert (HE : (0 < E)%Q) by apply pow2_pos.
    assert (Hy : (y * E == x)%Q).
    { unfold y. field. intros H. rewrite H in HE. discriminate HE. }
    destruct (ilog2_bounds (Qabs x) Hx) as [Hlo Hhi].
    assert (He1 : (-1074 <= e)%Z) by (unfold e, ulp_exponent; lia).
    assert (He2 : e = (-1074)%Z \/ (pow2 (e + 52) <= Qabs x)%Q).
    { unfold e, ulp_exponent.
      destruct (Z.max_spec (ilog2 (Qabs x) - 52) (-1074)) as [[_ ->]|[_ ->]].
      - left. reflexivity.
      - right. replace (ilog2 (Qabs x) - 52 + 52)%Z with (ilog2 (Qabs x)) by lia.
        exact Hlo. }
    assert (He3 : (Qabs x < pow2 (e + 53))%Q).
    { eapply Qlt_le_trans; [exact Hhi|]. apply pow2_le. unfold e, ulp_exponent.
      pose proof (Z.le_max_l (ilog2 (Qabs x) - 52) (-1074)). lia. }
    destruct (py_round_cases y) as [[Hr1 Hr2] Hev]. fold m in Hr1, Hr2, Hev.
    assert (Hhalf : (pow2 (e - 1) == (1 # 2) * E)%Q).
    { replace (e - 1)%Z with (-1 + e)%Z by lia. rewrite pow2_add. reflexivity. }
    assert (Hdiff : (inject_Z m * E - x == (inject_Z m - y) * E)%Q).
    { rewrite <- Hy. ring. }
    assert (Habs : (Qabs (inject_Z m * E - x) == Qabs (inject_Z m - y) * E)%Q).
    { rewrite Hdiff, Qabs_Qmult, (Qabs_pos E) by (apply Qlt_le_weak; exact HE).
      reflexivity. }
    exists m, e. split; [reflexivity|]. split; [exact He1|]. split; [exact He2|].
    split; [exact He3|]. split; [|split].
    + assert (Hyb : (Qabs y < pow2 53)%Q).
      { apply (Qmult_lt_r _ _ E HE). rewrite <- (Qabs_pos E) at 1
          by (apply Qlt_le_weak; exact HE).
        rewrite <- Qabs_Qmult, Hy. unfold E. rewrite <- pow2_add.
        replace (53 + e)%Z with (e + 53)%Z by lia. exact He3. }
      rewrite (pow2_nonneg_Z 53) in Hyb by lia.
      apply Qlt_le_weak, Qabs_Qle_condition in Hyb as [Hy1 Hy2].
      apply Z.abs_le. split.
      * apply py_round_ge_int. rewrite inject_Z_opp. exact Hy1.
      * apply py_round_le_int. exact Hy2.
    + rewrite Habs, Hhalf. apply Qmult_le_compat_r; [|apply Qlt_le_weak; exact HE].
      apply Qabs_Qle_condition. split; lra.
    + intros Htie. apply Hev. rewrite Habs, Hhalf in Htie.
      assert (Ht : (Qabs (inject_Z m - y) == 1 # 2)%Q).
      { apply (Qmult_inj_r _ _ E); [|exact Htie].
        intros H. rewrite H in HE. discriminate HE. }
      revert Ht. apply Qabs_case; intros Hs Ht; [left|right]; lra.
Qed.

(** Rounding to a double does not cross a power of two. *)
Lemma round_double_bounded (x : Q) (k : Z) :
  (-1074 <= k)%Z -> (Qabs x <= pow2 k)%Q -> (Qabs (round_double x) <= pow2 k)%Q.
Proof.
  intros Hk Hx. unfold round_double. destruct (Qeq_bool x 0) eqn:E0.
  - apply Qlt_le_weak, pow2_pos.
  - pose proof (Qabs_nonzero x E0) as Hpos.
    set (e := ulp_exponent (Qabs x)). set (E := pow2 e).
    assert (HE : (0 < E)%Q) by apply pow2_pos.
    destruct (ilog2_bounds (Qabs x) Hpos) as [Hlo _].
    assert (Hle : (e <= k)%Z).
    { unfold e, ulp_exponent. apply Z.max_lub; [|exact Hk].
      destruct (Z_le_gt_dec (ilog2 (Qabs x)) k) as [?|Hgt]; [lia|exfalso].
      assert (H1 : (pow2 (k + 1) <= Qabs x)%Q).
      { eapply Qle_trans; [|exact Hlo]. apply pow2_le. lia. }
      pose proof (pow2_lt k (k + 1) ltac:(lia)) as H2. lra. }
    assert (Hk2 : (pow2 k == inject_Z (2 ^ (k - e)) * E)%Q).
    { rewrite <- (pow2_nonneg_Z (k - e)) by lia. unfold E. rewrite <- pow2_add.
      replace (k - e + e)%Z with k by lia. reflexivity. }
    assert (Hy : (x / E * E == x)%Q).
    { field. intros H. rewrite H in HE. discriminate HE. }
    apply Qabs_Qle_condition in Hx as [Hx1 Hx2].
    rewrite Hk2 in Hx1, Hx2. rewrite Hk2.
    rewrite Qabs_Qmult, (Qabs_pos E) by (apply Qlt_le_weak; exact HE).
    apply Qmult_le_compat_r; [|apply Qlt_le_weak; exact HE].
    apply Qabs_Qle_condition. rewrite <- inject_Z_opp, <- !Zle_Qle. split.
    + apply py_round_ge_int. apply (Qmult_le_r _ _ E HE). rewrite Hy, inject_Z_opp.
      lra.
    + apply py_round_le_int. apply (Qmult_le_r _ _ E HE). rewrite Hy. exact Hx2.
Qed.

Lemma scaled_sign (t E : Q) : (0 < E)%Q -> (t * E <= 0)%Q -> (t <= 0)%Q.
Proof.
  intros HE H. apply (Qmult_le_r _ _ E HE). rewrite Qmult_0_l. exact H.
Qed.

(** At most one number is the nearest double of [x]. *)
Lemma nearest_double_unique (x p p' : Q) :
  nearest_double x p -> nearest_double x p' -> (p == p')%Q.
Proof.
  assert (Hzero : forall q, (x == 0)%Q ->
            (exists m e : Z,
               (q == inject_Z m * pow2 e)%Q /\ (-1074 <= e)%Z
               /\ (e = (-1074)%Z \/ (pow2 (e + 52) <= Qabs x)%Q)
               /\ (Qabs x < pow2 (e + 53))%Q /\ (Z.abs m <= 2 ^ 53)%Z
               /\ (Qabs (q - x) <= pow2 (e - 1))%Q
               /\ ((Qabs (q - x) == pow2 (e - 1))%Q -> Z.even m = true)) ->
            (q == 0)%Q).
  { intros q Hx (m & e & Hq & _ & _ & _ & _ & Hd & _).
    assert (HE : (0 < pow2 e)%Q) by apply pow2_pos.
    assert (Hhalf : (pow2 (e - 1) == (1 # 2) * pow2 e)%Q).
    { replace (e - 1)%Z with (-1 + e)%Z by lia. rewrite pow2_add. reflexivity. }
    rewrite Hhalf, Hq, Hx in Hd. apply Qabs_Qle_condition in Hd as [Hd1 Hd2].
    assert (H1 : (inject_Z m <= 1 # 2)%Q).
    { apply (Qmult_le_r _ _ (pow2 e) HE). lra. }
    assert (H2 : (- (1 # 2) <= inject_Z m)%Q).
    { apply (Qmult_le_r _ _ (pow2 e) HE). lra. }
    assert (Hm : m = 0%Z).
    { destruct (Z_le_gt_dec m 0) as [Hn|Hn]; destruct (Z_le_gt_dec 0 m) as [Hp|Hp];
        try lia; exfalso.
      - assert (H : (m <= -1)%Z) by lia. rewrite Zle_Qle in H.
        change (inject_Z (-1)) with (-1)%Q in H. lra.
      - assert (H : (1 <= m)%Z) by lia. rewrite Zle_Qle in H.
        change (inject_Z 1) with 1%Q in H. lra. }
    rewrite Hq, Hm. reflexivity. }
  intros [[Hx Hp]|H] [[Hx' Hp']|H'].
  - rewrite Hp, Hp'. reflexivity.
  - rewrite Hp. symmetry. apply Hzero; assumption.
  - rewrite Hp'. apply Hzero; assumption.
  - destruct H as (m & e & Hp & He1 & He2 & He3 & _ & Hd & Ht).
    destruct H' as (m' & e' & Hp' & He1' & He2' & He3' & _ & Hd' & Ht').
    assert (Hee : e = e').
    { destruct (Z.lt_trichotomy e e') as [Hlt|[Heq|Hgt]]; [exfalso|exact Heq|exfalso].
      - destruct He2' as [->|He2']; [lia|].
        pose proof (pow2_le (e + 53) (e' + 52) ltac:(lia)). lra.
      - destruct He2 as [->|He2]; [lia|].
        pose proof (pow2_le (e' + 53) (e + 52) ltac:(lia)). lra. }
    subst e'. set (E := pow2 e) in *.
    assert (HE : (0 < E)%Q) by apply pow2_pos.
    assert (Hhalf : (pow2 (e - 1) == (1 # 2) * E)%Q).
    { replace (e - 1)%Z with (-1 + e)%Z by lia. unfold E. rewrite pow2_add.
      reflexivity. }
    rewrite Hhalf in Hd, Hd', Ht, Ht'. rewrite Hp in Hd, Ht. rewrite Hp' in Hd', Ht'.
    pose proof Hd as Hd0. pose proof Hd' as Hd0'.
    apply Qabs_Qle_condition in Hd as [Hd1 Hd2].
    apply Qabs_Qle_condition in Hd' as [Hd1' Hd2'].
    assert (H1 : (inject_Z m - inject_Z m' - 1 <= 0)%Q).
    { apply (scaled_sign _ E HE). lra. }
    assert (H2 : (inject_Z m' - inject_Z m - 1 <= 0)%Q).
    { apply (scaled_sign _ E HE). lra. }
    assert (Hz1 : (m <= m' + 1)%Z).
    { rewrite Zle_Qle, inject_Z_plus. change (inject_Z 1) with 1%Q. lra. }
    assert (Hz2 : (m' <= m + 1)%Z).
    { rewrite Zle_Qle, inject_Z_plus. change (inject_Z 1) with 1%Q. lra. }
    assert (Htie : m <> m' ->
              (Qabs (inject_Z m * E - x) == (1 # 2) * E)%Q
              /\ (Qabs (inject_Z m' * E - x) == (1 # 2) * E)%Q).
    { intros Hne.
      assert (Hc : (m' = m + 1 \/ m = m' + 1)%Z) by lia.
      destruct Hc as [Hc|Hc]; rewrite Hc, inject_Z_plus in *;
        change (inject_Z 1) with 1%Q in *; split; apply Qle_antisym; try assumption.
      - rewrite <- Qabs_opp. eapply Qle_trans; [|apply Qle_Qabs]. lra.
      - eapply Qle_trans; [|apply Qle_Qabs]. lra.
      - eapply Qle_trans; [|apply Qle_Qabs]. lra.
      - rewrite <- Qabs_opp. eapply Qle_trans; [|apply Qle_Qabs]. lra. }
    destruct (Z.eq_dec m m') as [->|Hne].
    + rewrite Hp, Hp'. reflexivity.
    + exfalso. destruct (Htie Hne) as [T1 T2].
      pose proof (Ht T1) as Ev. pose proof (Ht' T2) as Ev'.
      assert (Hc : (m' = m + 1 \/ m = m' + 1)%Z) by lia.
      destruct Hc as [Hc|Hc]; rewrite Hc, Z.even_add in *; simpl in *;
        destruct (Z.even m), (Z.even m'); discriminate.
Qed.

Lemma py_round_nearest (x : Q) : nearest_integer x (py_round x).
Proof. exact (py_round_cases x). Qed.

(** At most one integer is the nearest integer of [p]. *)
Lemma nearest_integer_unique (p : Q) (r r' : Z) :
  nearest_integer p r -> nearest_integer p r' -> r = r'.
Proof.
  intros [[H1 H2] Ht] [[H1' H2'] Ht'].
  assert (Hz1 : (r <= r' + 1)%Z).
  { rewrite Zle_Qle, inject_Z_plus. change (inject_Z 1) with 1%Q. lra. }
  assert (Hz2 : (r' <= r + 1)%Z).
  { rewrite Zle_Qle, inject_Z_plus. change (inject_Z 1) with 1%Q. lra. }
  destruct (Z.eq_dec r r') as [|Hne]; [assumption|exfalso].
  assert (Hc : (r' = r + 1 \/ r = r' + 1)%Z) by lia.
  destruct Hc as [Hc|Hc]; subst; rewrite inject_Z_plus in *;
    change (inject_Z 1) with 1%Q in *.
  - assert (Ev : Z.even r = true) by (apply Ht; right; lra).
    assert (Ev' : Z.even (r + 1) = true) by (apply Ht'; left; lra).
    rewrite Z.even_add, Ev in Ev'. discriminate.
  - assert (Ev : Z.even r' = true) by (apply Ht'; right; lra).
    assert (Ev' : Z.even (r' + 1) = true) by (apply Ht; left; lra).
    rewrite Z.even_add, Ev in Ev'. discriminate.
Qed.

(** ** The split assigner: the count and the two slices *)

(** The float of a fraction of [0, 1] is in [0, 1], and its float product
    with a length is between 0 and the length. *)
Lemma double_product_bounds (f : Q) (n : nat) :
  (0 <= f)%Q -> (f <= 1)%Q ->
  (0 <= round_double f <= 1)%Q
  /\ (0 <= double_product f n <= inject_Z (Z.of_nat n))%Q.
Proof.
  intros H0 H1.
  assert (H53 : (1 < 2 ^ 53)%Z) by reflexivity.
  destruct (round_double_between f 1 H0 H1 H53) as [Hd0 Hd1].
  change (inject_Z 1) with 1%Q in Hd1.
  split; [split; assumption|].
  set (fd := round_double f) in *.
  assert (Hn : (0 <= inject_Z (Z.of_nat n))%Q) by (rewrite <- (Zle_Qle 0); lia).
  assert (Hx0 : (0 <= fd * inject_Z (Z.of_nat n))%Q) by (by apply Qmult_le_0_compat).
  assert (Hx1 : (fd * inject_Z (Z.of_nat n) <= inject_Z (Z.of_nat n))%Q).
  { rewrite <- (Qmult_1_l (inject_Z (Z.of_nat n))) at 2.
    by apply Qmult_le_compat_r. }
  unfold double_product. fold fd.
  destruct (Z.ltb_spec (Z.of_nat n) (2 ^ 53)) as [Hlt|Hge].
  - by apply round_double_between.
  - split; assumption.
Qed.

(** For a non-empty sequence and a fraction of (0, 1], the validation count
    is between 1 and the length. *)
Lemma n_val_bounds {X : Type} (f : Q) (ind : list X) :
  (1 <= length ind)%nat -> (0 < f)%Q -> (f <= 1)%Q ->
  (1 <= n_val_of f ind <= Z.of_nat (length ind))%Z.
Proof.
  intros HL Hf0 Hf1. unfold n_val_of.
  destruct (double_product_bounds f (length ind)) as [_ [Hp0 Hp1]];
    [by apply Qlt_le_weak|exact Hf1|].
  destruct (py_round_bounds _ _ Hp0 Hp1) as [_ Hr]. lia.
Qed.

(** The two slices of line 49 for a count between 1 and the length. *)
Lemma slices_at_negative_bound {X : Type} (ind : list X) (n_val : Z) :
  (1 <= n_val <= Z.of_nat (length ind))%Z ->
  slice_until ind (- n_val) = take (length ind - Z.to_nat n_val) ind
  /\ slice_since ind (- n_val) = drop (length ind - Z.to_nat n_val) ind.
Proof.
  intros Hn. unfold slice_until, slice_since, slice_bound.
  destruct (Z.ltb_spec (- n_val) 0); [|lia].
  replace (Z.to_nat (Z.max 0 (- n_val + Z.of_nat (length ind))))
    with (length ind - Z.to_nat n_val)%nat by lia.
  auto.
Qed.

(** C1: for a sequence of length [L >= 1] (shorter than [2 ** 53], as every
    list in memory is) and a fraction [f] of (0, 1],
    [n_val = max(1, round(f * L))], where [f] is the float nearest to the
    fraction, [f * L] the float nearest to its product with [L], and [round]
    takes the nearest integer, the even one at a tie; [n_val] lies in
    [1..L]; the validation subset is the last [n_val] elements and has length
    [n_val]; the train subset is the first [L - n_val] elements and has
    length [L - n_val]; train followed by validation is the sequence
    itself. *)
Theorem split_assigner_partition {X : Type} (f : Q) (ind : list X) :
  (1 <= length ind)%nat -> (Z.of_nat (length ind) < 2 ^ 53)%Z ->
  (0 < f)%Q -> (f <= 1)%Q ->
  exists (n_val : nat) (fd p : Q) (r : Z),
    nearest_double f fd
    /\ nearest_double (fd * inject_Z (Z.of_nat (length ind))) p
    /\ nearest_integer p r
    /\ Z.of_nat n_val = Z.max 1 r
    /\ n_val_of f ind = Z.of_nat n_val
    /\ (1 <= n_val <= length ind)%nat
    /\ (split_indices f ind).2 = drop (length ind - n_val) ind
    /\ length (split_indices f ind).2 = n_val
    /\ (split_indices f ind).1 = take (length ind - n_val) ind
    /\ length (split_indices f ind).1 = (length ind - n_val)%nat
    /\ (split_indices f ind).1 ++ (split_indices f ind).2 = ind.
Proof.
  intros HL H53 Hf0 Hf1.
  pose proof (n_val_bounds f ind HL Hf0 Hf1) as Hn.
  destruct (slices_at_negative_bound ind _ Hn) as [Ht Hd].
  assert (Hp : double_product f (length ind)
               = round_double (round_double f * inject_Z (Z.of_nat (length ind)))).
  { unfold double_product. by destruct (Z.ltb_spec (Z.of_nat (length ind)) (2 ^ 53)); [|lia]. }
  exists (Z.to_nat (n_val_of f ind)), (round_double f),
    (double_product f (length ind)), (py_round (double_product f (length ind))).
  unfold split_indices. cbv zeta. cbn [fst snd]. rewrite Ht, Hd.
  split; [apply round_double_nearest|].
  split; [rewrite Hp; apply round_double_nearest|].
  split; [apply py_round_nearest|].
  split; [unfold n_val_of in *; lia|]. split; [lia|]. split; [lia|].
  split; [reflexivity|]. split; [rewrite length_drop; lia|].
  split; [reflexivity|]. split; [rewrite length_take; lia|].
  apply take_drop.
Qed.

Lemma split_assigner_partition_witness :
  exists n_val : nat,
    n_val_of (14 # 100) (py_range 75) = Z.of_nat n_val
    /\ n_val = 11%nat
    /\ (split_indices (14 # 100) (py_range 75)).1 = seq 0 64
    /\ (split_indices (14 # 100) (py_range 75)).2 = seq 64 11
    /\ (split_indices (14 # 100) (py_range 75)).1
       ++ (split_indices (14 # 100) (py_range 75)).2 = py_range 75.
Proof.
  destruct (split_assigner_partition (14 # 100) (py_range 75))
    as (n & fd & p & r & _ & _ & _ & _ & Hn & _ & _ & _ & _ & _ & Happ).
  - simpl. lia.
  - vm_compute. reflexivity.
  - reflexivity.
  - discriminate.
  - exists n. split; [exact Hn|]. split.
    { assert (E : n_val_of (14 # 100) (py_range 75) = 11%Z) by (vm_compute; reflexivity).
      rewrite E in Hn. lia. }
    split; [vm_compute; reflexivity|]. split; [vm_compute; reflexivity|]. exact Happ.
Defined.

(** C5, as the code has it: for a sequence of length [L >= 1] and a fraction
    of (0, 1], the validation subset is never empty; it is the whole sequence
    exactly when [n_val = L], which is the case when [L = 1], and then the
    train subset is empty. *)
Theorem validation_subset_extent {X : Type} (f : Q) (ind : list X) :
  (1 <= length ind)%nat -> (0 < f)%Q -> (f <= 1)%Q ->
  (split_indices f ind).2 <> []
  /\ ((split_indices f ind).2 = ind <-> n_val_of f ind = Z.of_nat (length ind))
  /\ ((split_indices f ind).2 = ind -> (split_indices f ind).1 = [])
  /\ (length ind = 1%nat -> (split_indices f ind).2 = ind).
Proof.
  intros HL Hf0 Hf1.
  pose proof (n_val_bounds f ind HL Hf0 Hf1) as Hn.
  destruct (slices_at_negative_bound ind _ Hn) as [Ht Hd].
  unfold split_indices. simpl. rewrite Ht, Hd.
  assert (Hlen : length (drop (length ind - Z.to_nat (n_val_of f ind)) ind)
                 = Z.to_nat (n_val_of f ind)) by (rewrite length_drop; lia).
  assert (Hall : n_val_of f ind = Z.of_nat (length ind) ->
                 (length ind - Z.to_nat (n_val_of f ind) = 0)%nat) by lia.
  split; [|split; [split|split]].
  - intros E. rewrite E in Hlen. simpl in Hlen. lia.
  - intros E. rewrite E in Hlen. lia.
  - intros E. rewrite (Hall E). reflexivity.
  - intros E. rewrite E in Hlen.
    replace (length ind - Z.to_nat (n_val_of f ind))%nat with 0%nat by lia.
    reflexivity.
  - intros E. replace (length ind - Z.to_nat (n_val_of f ind))%nat with 0%nat by lia.
    reflexivity.
Qed.

Lemma validation_subset_extent_witness :
  (split_indices VAL_PERCENT (py_range 10)).2 <> []
  /\ ((split_indices VAL_PERCENT (py_range 10)).2 = py_range 10
      <-> n_val_of VAL_PERCENT (py_range 10) = Z.of_nat (length (py_range 10))).
Proof.
  destruct (validation_subset_extent VAL_PERCENT (py_range 10)) as (H1 & H2 & _).
  - simpl. lia.
  - reflexivity.
  - discriminate.
  - split; [exact H1 | exact H2].
Defined.

(** C5, as stated, fails: with the fraction of the script and two elements,
    [round(1.6) = 2] and the validation subset is the whole sequence; and an
    empty sequence has an empty validation subset. *)
Lemma validation_subset_can_be_everything :
  (split_indices VAL_PERCENT (py_range 2)).2 = py_range 2
  /\ ~ (length (py_range 2) <= 1)%nat
  /\ (split_indices VAL_PERCENT (py_range 0)).2 = [].
Proof.
  split; [reflexivity|]. split; [simpl; lia|reflexivity].
Qed.

Example split_ten : split_indices VAL_PERCENT (py_range 10)
                    = ([0; 1]%nat, [2; 3; 4; 5; 6; 7; 8; 9]%nat).
Proof. reflexivity. Qed.

Example split_one : split_indices VAL_PERCENT (py_range 1) = ([], [0%nat]).
Proof. reflexivity. Qed.

(** The product of line 48 is a float product: [0.14 * 75] is the float next
    above [10.5] and rounds to 11, where the exact product, [10.5], would
    round to 10. *)
Example float_product_rounds_up :
  n_val_of (14 # 100) (py_range 75) = 11%Z
  /\ py_round ((14 # 100) * 75) = 10%Z
  /\ (21 # 2 < double_product (14 # 100) 75)%Q
  /\ Qred (double_product (14 # 100) 75 - (21 # 2)) = (1 # 562949953421312)%Q.
Proof. vm_compute. auto. Qed.

Example py_round_ties : (py_round (1 # 2), py_round (3 # 2), py_round (5 # 2)) = (0, 2, 2)%Z.
Proof. reflexivity. Qed.

(** ** The script from the conversion to the split *)

(** Reading a run of consecutive positions copies that run. *)
Lemma gather_seq {X : Type} (xs : list X) (a n : nat) :
  (a + n <= length xs)%nat -> gather xs (seq a n) = Ok (take n (drop a xs)).
Proof.
  revert a. induction n as [|n IH]; intros a Hlen; simpl.
  - reflexivity.
  - destruct (lookup_lt_is_Some_2 xs a) as [x Hx]; [lia|].
    unfold getitem. rewrite Hx. simpl. rewrite IH by lia. simpl.
    rewrite (drop_S xs x a Hx). reflexivity.
Qed.

(** A prefix and the complementary suffix of the positions read a prefix and
    the complementary suffix. *)
Lemma gather_split {X : Type} (xs : list X) (k : nat) :
  (k <= length xs)%nat ->
  gather xs (take k (py_range (length xs))) = Ok (take k xs)
  /\ gather xs (drop k (py_range (length xs))) = Ok (drop k xs).
Proof.
  intros Hk. unfold py_range. rewrite take_seq, drop_seq. split.
  - rewrite gather_seq by lia. simpl. f_equal. f_equal. lia.
  - rewrite gather_seq by lia. simpl. f_equal. apply take_ge.
    rewrite length_drop. lia.
Qed.

Lemma slice_bound_le (len : nat) (i : Z) : (slice_bound len i <= len)%nat.
Proof. unfold slice_bound. destruct (Z.ltb_spec i 0); lia. Qed.

(** With one identifier per volume and equal slice counts volume for volume,
    the script gets past its assertion, and hands the trainer a prefix and the
    complementary suffix of the converted slices, of the converted labels and
    of the slice identifiers, cut at the same position. *)
Lemma main_split_partition {A T U : Type} (float32 : A -> T) (uint16 : A -> U)
    (f : Q) (X Y : list (volume A)) (X_paths Y_paths : list string) :
  length X_paths = length X -> length Y_paths = length Y ->
  Forall2 (fun x y => length x = length y) X Y ->
  exists d X_2d Y_2d X_paths_2d Y_paths_2d,
    convert_2d float32 X (Some X_paths) = Ok (X_2d, Some X_paths_2d)
    /\ convert_2d uint16 Y (Some Y_paths) = Ok (Y_2d, Some Y_paths_2d)
    /\ main_split float32 uint16 f X Y X_paths Y_paths = Ok d
    /\ (X_trn d, X_val d) = split_indices f X_2d
    /\ (Y_trn d, Y_val d) = split_indices f Y_2d
    /\ (X_trn_paths d, X_val_paths d) = split_indices f X_paths_2d
    /\ X_trn d ++ X_val d = X_2d
    /\ Y_trn d ++ Y_val d = Y_2d
    /\ X_trn_paths d ++ X_val_paths d = X_paths_2d.
Proof.
  intros HX HY Hshape.
  pose proof (convert_2d_named float32 X X_paths ltac:(lia)) as HrX.
  pose proof (convert_2d_named uint16 Y Y_paths ltac:(lia)) as HrY.
  set (X_2d := map (fun t => astype float32 t.2) (turns X)) in *.
  set (Y_2d := map (fun t => astype uint16 t.2) (turns Y)) in *.
  set (Xn := map (fun t => slice_name (source_at X_paths t.1.1) t.1.2) (turns X)) in *.
  set (Yn := map (fun t => slice_name (source_at Y_paths t.1.1) t.1.2) (turns Y)) in *.
  assert (Hl : length (turns X) = length (turns Y)).
  { rewrite <- (length_fmap fst (turns X)), <- (length_fmap fst (turns Y)).
    unfold turns. by rewrite (turns_from_same_shape X Y 0 Hshape). }
  assert (HlY : length Y_2d = length X_2d) by (unfold X_2d, Y_2d; rewrite !length_map; lia).
  assert (HlN : length Xn = length X_2d) by (unfold X_2d, Xn; by rewrite !length_map).
  assert (Hn : forall {V W : Type} (l : list V) (l' : list W),
             length l = length l' -> n_val_of f l = n_val_of f l').
  { intros V W l l' E. unfold n_val_of. by rewrite E. }
  set (k := slice_bound (length X_2d) (- n_val_of f X_2d)).
  assert (Hk : (k <= length X_2d)%nat) by apply slice_bound_le.
  assert (Hmain : main_split float32 uint16 f X Y X_paths Y_paths
                  = Ok {| X_trn := take k X_2d; Y_trn := take k Y_2d;
                          X_val := drop k X_2d; Y_val := drop k Y_2d;
                          X_trn_paths := take k Xn; X_val_paths := drop k Xn |}).
  { unfold main_split. rewrite HrX, HrY. simpl.
    replace (length X_2d =? length Y_2d)%nat with true
      by (symmetry; apply Nat.eqb_eq; lia).
    simpl.
    rewrite (Hn _ _ (py_range (length X_2d)) X_2d) by apply length_seq.
    unfold slice_until, slice_since. unfold py_range at 1 3 5 7 9 11.
    rewrite length_seq. fold k. fold (py_range (length X_2d)).
    destruct (gather_split X_2d k Hk) as [E1 E2].
    destruct (gather_split Y_2d k ltac:(lia)) as [E3 E4].
    destruct (gather_split Xn k ltac:(lia)) as [E5 E6].
    rewrite HlY in E3, E4. rewrite HlN in E5, E6.
    rewrite E2, E4, E1, E3. simpl. rewrite E5, E6. reflexivity. }
  eexists _, X_2d, Y_2d, Xn, Yn.
  split; [exact HrX|]. split; [exact HrY|]. split; [exact Hmain|]. simpl.
  unfold split_indices, slice_until, slice_since.
  rewrite <- (Hn _ _ X_2d Y_2d), <- (Hn _ _ X_2d Xn) by congruence.
  rewrite HlY, HlN. fold k.
  repeat split; auto using take_drop.
Qed.

(** ** numpy reductions *)

Lemma score_below_refl (a : score) : score_below a a = true.
Proof.
  destruct a as [q|]; simpl; [|reflexivity]. apply Qle_bool_iff, Qle_refl.
Qed.

Lemma score_below_trans (a b c : score) :
  score_below a b = true -> score_below b c = true -> score_below a c = true.
Proof.
  destruct a as [x|], b as [y|], c as [z|]; simpl; try congruence.
  rewrite !Qle_bool_iff. apply Qle_trans.
Qed.

Lemma score_below_total (a b : score) :
  score_below a b = false -> score_below b a = true.
Proof.
  destruct a as [x|], b as [y|]; simpl; try congruence.
  intros H. apply Qle_bool_iff. apply Qlt_le_weak, Qnot_le_lt.
  intros Hle. apply Qle_bool_iff in Hle. congruence.
Qed.

(** The scan, from a running maximum [Num m] found at [best] in the numbers
    [pre] already seen, ends on the lowest index of a maximum. *)
Lemma argmax_scan_first_max (rest pre : list score) (m : Q) (best : nat) :
  pre !! best = Some (Num m) ->
  (forall j s, pre !! j = Some s -> is_nan s = false /\ score_below s (Num m) = true) ->
  (forall j s, (j < best)%nat -> pre !! j = Some s -> score_below (Num m) s = false) ->
  is_first_max (pre ++ rest) (argmax_scan (Num m) best (length pre) rest).
Proof.
  revert pre m best. induction rest as [|x rest IH]; intros pre m best Hbest Hall Hfirst.
  - simpl. rewrite app_nil_r. exists (Num m). split; [exact Hbest|].
    split; [intros j s Hj; by apply (Hall j s)|exact Hfirst].
  - simpl. destruct x as [q|]; simpl.
    + destruct (Qle_bool q m) eqn:E; simpl.
      * (* not above the running maximum *)
        replace (pre ++ Num q :: rest) with ((pre ++ [Num q]) ++ rest)
          by (by rewrite <- app_assoc).
        replace (S (length pre)) with (length (pre ++ [Num q]))
          by (rewrite length_app; simpl; lia).
        apply IH.
        -- rewrite lookup_app_l; [exact Hbest|]. eapply lookup_lt_Some; eauto.
        -- intros j s Hj. apply lookup_app_Some in Hj as [Hj|[_ Hj]].
           ++ by apply (Hall j s).
           ++ apply list_lookup_singleton_Some in Hj as [_ <-]. simpl. auto.
        -- intros j s Hlt Hj. apply (Hfirst j s Hlt).
           rewrite lookup_app_l in Hj; [exact Hj|].
           apply lookup_lt_Some in Hbest. lia.
      * (* a new maximum *)
        replace (pre ++ Num q :: rest) with ((pre ++ [Num q]) ++ rest)
          by (by rewrite <- app_assoc).
        replace (S (length pre)) with (length (pre ++ [Num q]))
          by (rewrite length_app; simpl; lia).
        assert (Hmq : score_below (Num m) (Num q) = true).
        { apply (score_below_total (Num q) (Num m)). exact E. }
        apply IH.
        -- rewrite lookup_app_r by lia. by rewrite Nat.sub_diag.
        -- intros j s Hj. apply lookup_app_Some in Hj as [Hj|[_ Hj]].
           ++ destruct (Hall j s Hj) as [Hn Hb]. split; [exact Hn|].
              eapply score_below_trans; eauto.
           ++ apply list_lookup_singleton_Some in Hj as [_ <-].
              split; [reflexivity|apply score_below_refl].
        -- intros j s Hlt Hj. rewrite lookup_app_l in Hj by lia.
           destruct (Hall j s Hj) as [Hn Hb].
           destruct (score_below (Num q) s) eqn:Hqs; [|reflexivity].
           assert (Hqm : score_below (Num q) (Num m) = true)
             by (eapply score_below_trans; eauto).
           simpl in Hqm. congruence.
    + (* the first not-a-number ends the scan *)
      exists NaN. split.
      * rewrite lookup_app_r by lia. by rewrite Nat.sub_diag.
      * split; [reflexivity|]. intros j s Hlt Hj.
        rewrite lookup_app_l in Hj by lia.
        destruct (Hall j s Hj) as [Hn _]. destruct s; [reflexivity|discriminate].
Qed.

(** [np.argmax] raises on an empty sequence only, and otherwise returns the
    lowest index of a maximum. *)
Lemma np_argmax_first_max (a : list score) :
  (0 < length a)%nat -> exists k, np_argmax a = Ok k /\ is_first_max a k.
Proof.
  destruct a as [|x rest]; simpl; [lia|]. intros _.
  destruct x as [m|]; simpl.
  - eexists. split; [reflexivity|].
    apply (argmax_scan_first_max rest [Num m] m 0).
    + reflexivity.
    + intros j s Hj. apply list_lookup_singleton_Some in Hj as [_ <-].
      split; [reflexivity|apply (score_below_refl (Num m))].
    + intros j s Hlt. lia.
  - exists 0%nat. split; [reflexivity|]. exists NaN.
    split; [reflexivity|]. split; [reflexivity|]. intros j s Hlt. lia.
Qed.

Lemma is_first_max_lt (a : list score) (k : nat) :
  is_first_max a k -> (k < length a)%nat.
Proof. intros (sk & Hk & _). eapply lookup_lt_Some; eauto. Qed.

Lemma is_first_max_unique (a : list score) (k k' : nat) :
  is_first_max a k -> is_first_max a k' -> k = k'.
Proof.
  intros (sk & Hk & Hall & Hfirst) (sk' & Hk' & Hall' & Hfirst').
  destruct (Nat.lt_trichotomy k k') as [Hlt|[Heq|Hlt]]; [|exact Heq|].
  - pose proof (Hfirst' k sk Hlt Hk). pose proof (Hall k' sk' Hk'). congruence.
  - pose proof (Hfirst k' sk' Hlt Hk'). pose proof (Hall' k sk Hk). congruence.
Qed.

Lemma score_max_upper (a b : score) :
  score_below a (score_max a b) = true /\ score_below b (score_max a b) = true
  /\ (score_max a b = a \/ score_max a b = b).
Proof.
  unfold score_max. destruct a as [x|], b as [y|]; simpl; auto.
  - destruct (Qle_bool x y) eqn:E; simpl.
    + split; [exact E|]. split; [apply Qle_bool_iff, Qle_refl|auto].
    + split; [apply Qle_bool_iff, Qle_refl|].
      split; [apply (score_below_total (Num x) (Num y) E)|auto].
Qed.

(** [np.max] raises on an empty sequence only, and otherwise returns an
    element that no element exceeds. *)
Lemma np_max_upper (a : list score) :
  (0 < length a)%nat ->
  exists m, np_max a = Ok m /\ m ∈ a /\ forall s, s ∈ a -> score_below s m = true.
Proof.
  destruct a as [|x rest]; simpl; [lia|]. intros _.
  eexists. split; [reflexivity|].
  revert x. induction rest as [|y rest IH]; intros x; simpl.
  - split; [apply list_elem_of_here|].
    intros s Hs. apply list_elem_of_singleton in Hs as ->. apply score_below_refl.
  - destruct (IH (score_max x y)) as [Hin Hup].
    destruct (score_max_upper x y) as (Hx & Hy & Hor).
    split.
    + apply elem_of_cons in Hin as [Hin|Hin].
      * rewrite Hin. destruct Hor as [-> | ->];
          [apply list_elem_of_here|apply list_elem_of_further, list_elem_of_here].
      * by do 2 apply list_elem_of_further.
    + assert (Htop : score_below (score_max x y) (fold_left score_max rest (score_max x y)) = true)
        by (apply Hup, list_elem_of_here).
      intros s Hs. apply elem_of_cons in Hs as [->|Hs].
      * eapply score_below_trans; eauto.
      * apply elem_of_cons in Hs as [->|Hs].
        -- eapply score_below_trans; eauto.
        -- by apply Hup, list_elem_of_further.
Qed.

(** ** Running a call of the plotting module *)

Lemma plot_same_length (xs : list Q) (ys : list score) (label : string) :
  length xs = length ys -> plot xs ys label = draw (Plot xs ys label).
Proof. intros H. unfold plot. rewrite H, Nat.eqb_refl. reflexivity. Qed.

Section SweepFacts.

Variables dice_coeff intersection_over_union precision recall
  : list Z -> list Z -> score.

Local Abbreviation run_sweep :=
  (sweep dice_coeff intersection_over_union precision recall).
Local Abbreviation run_plot :=
  (plot_model_performance_semantic dice_coeff intersection_over_union
     precision recall).

(** The sweep returns, per metric, the score of each threshold in sweep
    order. *)
Lemma sweep_scores (image : list Q) (gt : list Z) (threshold_range : list Q) :
  run_sweep image gt threshold_range
  = (map (fun t => dice_coeff gt (binarize image t)) threshold_range,
     map (fun t => intersection_over_union gt (binarize image t)) threshold_range,
     map (fun t => precision gt (binarize image t)) threshold_range,
     map (fun t => recall gt (binarize image t)) threshold_range).
Proof.
  unfold sweep.
  change ([] : list score) with
    (@nil score ++ map (fun t => dice_coeff gt (binarize image t)) []) at 1.
  cut (forall thr a b c d,
    fold_left (sweep_step dice_coeff intersection_over_union precision recall image gt)
      thr (a, b, c, d)
    = (a ++ map (fun t => dice_coeff gt (binarize image t)) thr,
       b ++ map (fun t => intersection_over_union gt (binarize image t)) thr,
       c ++ map (fun t => precision gt (binarize image t)) thr,
       d ++ map (fun t => recall gt (binarize image t)) thr)).
  { intros H. apply (H threshold_range [] [] [] []). }
  induction thr as [|t thr IH]; intros a b c d; simpl.
  - by rewrite !app_nil_r.
  - rewrite IH. by rewrite <- !app_assoc.
Qed.

(** On an empty threshold sequence the evaluator raises, at the arg-max of
    the empty Dice sequence, after the four empty curves are drawn. *)
Lemma sweep_evaluator_empty (image : list Q) (gt : list Z) (name : string)
    (print_max : bool) (w : world) :
  (run_plot image gt name (Some []) print_max w).1 = Raise ValueError.
Proof. reflexivity. Qed.

(** On a non-empty threshold sequence the evaluator returns the four score
    sequences, after drawing the curves, the marker at the threshold of the
    first maximum of Dice and, on demand, printing the maxima. *)
Lemma sweep_evaluator_run (image : list Q) (gt : list Z) (name : string)
    (thr : list Q) (print_max : bool) (w : world) :
  (0 < length thr)%nat ->
  let ds := map (fun t => dice_coeff gt (binarize image t)) thr in
  let ious := map (fun t => intersection_over_union gt (binarize image t)) thr in
  let ps := map (fun t => precision gt (binarize image t)) thr in
  let rs := map (fun t => recall gt (binarize image t)) thr in
  exists k t tail,
    np_argmax ds = Ok k /\ thr !! k = Some t
    /\ run_plot image gt name (Some thr) print_max w
       = (Ok (ds, ious, ps, rs),
          {| rc := rc w;
             drawn := drawn w ++
               [Figure 7 7; Plot thr ds "Dice"; Plot thr ious "IoU";
                Plot thr ps "Precision"; Plot thr rs "Recall";
                Axvline t; Text (t - (25 # 100)) 0 (MaxDiceAt t);
                Xlabel "Threshold"; Ylabel "Score";
                Title ("Model performance for " +:+ name);
                Legend LEGEND_FONT_SIZE; ShowFigure] ++ tail |})
    /\ (print_max = false -> tail = [])
    /\ (print_max = true ->
        exists m k' t' m',
          np_max ds = Ok m /\ np_max ious = Ok m'
          /\ np_argmax ious = Ok k' /\ thr !! k' = Some t'
          /\ tail = [PrintLine (MaxOf "Dice" m t); PrintLine (MaxOf "IoU" m' t')]).
Proof.
  intros Hlen ds ious ps rs.
  assert (Hds : (0 < length ds)%nat) by (unfold ds; by rewrite length_map).
  assert (His : (0 < length ious)%nat) by (unfold ious; by rewrite length_map).
  destruct (np_argmax_first_max ds Hds) as (k & Hk & Hfm).
  destruct (np_argmax_first_max ious His) as (k' & Hk' & Hfm').
  destruct (np_max_upper ds Hds) as (m & Hm & _).
  destruct (np_max_upper ious His) as (m' & Hm' & _).
  destruct (lookup_lt_is_Some_2 thr k) as [t Ht].
  { apply is_first_max_lt in Hfm. unfold ds in Hfm. by rewrite length_map in Hfm. }
  destruct (lookup_lt_is_Some_2 thr k') as [t' Ht'].
  { apply is_first_max_lt in Hfm'. unfold ious in Hfm'. by rewrite length_map in Hfm'. }
  exists k, t, (if print_max
                then [PrintLine (MaxOf "Dice" m t); PrintLine (MaxOf "IoU" m' t')]
                else []).
  split; [exact Hk|]. split; [exact Ht|]. split.
  - unfold plot_model_performance_semantic.
    rewrite sweep_scores. fold ds ious ps rs. cbv beta iota.
    rewrite !plot_same_length by (unfold ds, ious, ps, rs; by rewrite length_map).
    clearbody ds ious ps rs. destruct w as [r d].
    unfold mbind, io_bind, draw, lift, mret, io_ret. simpl.
    rewrite Hk. simpl. unfold getitem. rewrite Ht. simpl.
    destruct print_max; simpl.
    + repeat (first [rewrite Hm | rewrite Hm' | rewrite Hk | rewrite Hk'
                     | rewrite Ht | rewrite Ht']; simpl).
      by rewrite <- !app_assoc.
    + by rewrite <- !app_assoc.
  - split; [by intros ->|]. intros ->. exists m, k', t', m'. auto.
Qed.

End SweepFacts.

(** C2: on a non-empty threshold sequence (the default one included) the
    evaluator returns, and the threshold it marks on the plot and reports is
    the one at the lowest index of a maximum of the Dice scores of the sweep:
    no swept threshold has a higher Dice score, and every earlier one has a
    strictly lower one. *)
Theorem optimal_threshold_first_max_dice
    (dice_coeff intersection_over_union precision recall : list Z -> list Z -> score)
    (image : list Q) (gt : list Z) (name : string)
    (threshold_range : option (list Q)) (print_max : bool) (w : world) :
  let thr := match threshold_range with
             | None => default_threshold_range
             | Some t => t
             end in
  (0 < length thr)%nat ->
  exists k t sk dice_scores iou_scores precision_scores recall_scores reported,
    plot_model_performance_semantic dice_coeff intersection_over_union
      precision recall image gt name threshold_range print_max w
    = (Ok (dice_scores, iou_scores, precision_scores, recall_scores),
       {| rc := rc w;
          drawn := drawn w ++
            [Figure 7 7; Plot thr dice_scores "Dice"; Plot thr iou_scores "IoU";
             Plot thr precision_scores "Precision"; Plot thr recall_scores "Recall";
             Axvline t; Text (t - (25 # 100)) 0 (MaxDiceAt t);
             Xlabel "Threshold"; Ylabel "Score";
             Title ("Model performance for " +:+ name);
             Legend LEGEND_FONT_SIZE; ShowFigure] ++ reported |})
    /\ dice_scores = map (fun t => dice_coeff gt (binarize image t)) thr
    /\ thr !! k = Some t
    /\ dice_scores !! k = Some sk
    /\ (forall j s, dice_scores !! j = Some s -> score_below s sk = true)
    /\ (forall j s, (j < k)%nat -> dice_scores !! j = Some s ->
                    score_below sk s = false)
    /\ (print_max = false -> reported = [])
    /\ (print_max = true ->
        exists m m' t',
          reported = [PrintLine (MaxOf "Dice" m t); PrintLine (MaxOf "IoU" m' t')]
          /\ score_below m sk = true /\ score_below sk m = true).
Proof.
  intros thr Hlen.
  destruct (sweep_evaluator_run dice_coeff intersection_over_union precision
              recall image gt name thr print_max w Hlen)
    as (k & t & tail & Hk & Ht & Hrun & Hquiet & Hprint).
  assert (Hsame :
    plot_model_performance_semantic dice_coeff intersection_over_union
      precision recall image gt name threshold_range print_max w
    = plot_model_performance_semantic dice_coeff intersection_over_union
      precision recall image gt name (Some thr) print_max w).
  { unfold thr. destruct threshold_range; reflexivity. }
  set (ds := map (fun t => dice_coeff gt (binarize image t)) thr) in *.
  assert (Hds : (0 < length ds)%nat) by (unfold ds; by rewrite length_map).
  destruct (np_argmax_first_max ds Hds) as (k0 & Hk0 & Hfm).
  assert (k0 = k) as -> by congruence.
  destruct Hfm as (sk & Hsk & Hall & Hfirst).
  exists k, t, sk. do 4 eexists. exists tail.
  split; [rewrite Hsame; exact Hrun|].
  split; [reflexivity|]. split; [exact Ht|]. split; [exact Hsk|].
  split; [exact Hall|]. split; [exact Hfirst|]. split; [exact Hquiet|].
  intros Hpm. destruct (Hprint Hpm) as (m & k' & t' & m' & Hm & _ & _ & _ & ->).
  destruct (np_max_upper ds Hds) as (m0 & Hm0 & Hin & Hup).
  assert (m0 = m) as -> by congruence.
  exists m, m', t'. split; [reflexivity|]. split.
  - apply list_elem_of_lookup in Hin as [j Hj]. by apply (Hall j).
  - apply Hup. eapply list_elem_of_lookup_2; eauto.
Qed.

Lemma optimal_threshold_first_max_dice_witness :
  exists k t sk dice_scores iou_scores precision_scores recall_scores w',
    plot_model_performance_semantic Utils.dice_coeff Utils.intersection_over_union
      Utils.precision Utils.recall [9 # 10; 6 # 10; 1 # 10]%Q [1; 1; 0]%Z "model"
      (Some [0; 1 # 2; 7 # 10]%Q) true {| rc := ∅; drawn := [] |}
    = (Ok (dice_scores, iou_scores, precision_scores, recall_scores), w')
    /\ [0; 1 # 2; 7 # 10]%Q !! k = Some t
    /\ dice_scores !! k = Some sk
    /\ (forall j s, dice_scores !! j = Some s -> score_below s sk = true)
    /\ (forall j s, (j < k)%nat -> dice_scores !! j = Some s ->
                    score_below sk s = false).
Proof.
  destruct (optimal_threshold_first_max_dice Utils.dice_coeff
              Utils.intersection_over_union Utils.precision Utils.recall
              [9 # 10; 6 # 10; 1 # 10]%Q [1; 1; 0]%Z "model"
              (Some [0; 1 # 2; 7 # 10]%Q) true {| rc := ∅; drawn := [] |})
    as (k & t & sk & ds & ious & ps & rs & rep & Hrun & _ & Ht & Hsk & Hall & Hfirst & _).
  - simpl. lia.
  - exists k, t, sk, ds, ious, ps, rs. eexists. split; [exact Hrun|]. auto.
Defined.

Example sweep_marks_half :
  exists w', plot_model_performance_semantic Utils.dice_coeff
      Utils.intersection_over_union Utils.precision Utils.recall
      [9 # 10; 6 # 10; 1 # 10]%Q [1; 1; 0]%Z "model"
      (Some [0; 1 # 2; 7 # 10]%Q) false {| rc := ∅; drawn := [] |}
    = (Ok ([Num (4 # 5); Num (4 # 4); Num (2 # 3)],
           [Num (2 # 3); Num (2 # 2); Num (1 # 2)],
           [Num (2 # 3); Num (2 # 2); Num (1 # 1)],
           [Num (2 # 2); Num (2 # 2); Num (1 # 2)]), w')
    /\ In (Axvline (1 # 2)) (drawn w').
Proof.
  eexists. split; [vm_compute; reflexivity|]. simpl. tauto.
Qed.

(** ** The metrics on a perfect prediction *)

Lemma binarize_threshold_eq (image : list Q) (t t' : Q) :
  (t == t')%Q -> binarize image t = binarize image t'.
Proof.
  intros E. unfold binarize. apply map_ext. intros v.
  assert (H : Qle_bool v t = Qle_bool v t').
  { destruct (Qle_bool v t) eqn:E1, (Qle_bool v t') eqn:E2; try reflexivity.
    - apply Qle_bool_iff in E1. rewrite E in E1. apply Qle_bool_iff in E1. congruence.
    - apply Qle_bool_iff in E2. rewrite <- E in E2. apply Qle_bool_iff in E2. congruence. }
  by rewrite H.
Qed.

(** A map that is its own binarization holds zeros and ones only. *)
Lemma self_binarized_binary (gt : list Z) :
  binarize (map inject_Z gt) 0 = gt -> Forall (fun v => v = 0%Z \/ v = 1%Z) gt.
Proof.
  induction gt as [|v gt IH]; simpl; intros H; constructor.
  - injection H as Hv _. destruct (Qle_bool (inject_Z v) 0); auto.
  - apply IH. by injection H.
Qed.

Lemma overlap_self_binary (gt : list Z) :
  Forall (fun v => v = 0%Z \/ v = 1%Z) gt -> Utils.overlap gt gt = Utils.np_sum gt.
Proof.
  unfold Utils.overlap. induction 1 as [|v gt Hv _ IH]; simpl; [reflexivity|].
  rewrite IH. destruct Hv as [-> | ->]; reflexivity.
Qed.

Lemma np_sum_binary_pos (gt : list Z) :
  Forall (fun v => v = 0%Z \/ v = 1%Z) gt ->
  (0 <= Utils.np_sum gt)%Z /\ (In 1%Z gt -> 1 <= Utils.np_sum gt)%Z.
Proof.
  induction 1 as [|v gt Hv _ [IH0 IH1]]; simpl.
  - split; [lia|tauto].
  - split; [destruct Hv; lia|]. intros [E|Hin]; [lia|].
    specialize (IH1 Hin). destruct Hv; lia.
Qed.

Lemma ratio_same (n d : Z) :
  n = d -> d <> 0%Z -> exists q, Utils.ratio n d = Num q /\ (q == 1)%Q.
Proof.
  intros -> Hd. unfold Utils.ratio.
  destruct (Z.eqb_spec d 0) as [E|_]; [contradiction|].
  eexists. split; [reflexivity|]. apply Qmult_inv_r.
  intros H. apply Hd. unfold Qeq in H. simpl in H. lia.
Qed.

(** The four metrics of a non-empty binary mask against itself. *)
Lemma metrics_of_same_mask (gt : list Z) :
  Forall (fun v => v = 0%Z \/ v = 1%Z) gt -> In 1%Z gt ->
  exists d i p r,
    Utils.dice_coeff gt gt = Num d /\ Utils.intersection_over_union gt gt = Num i
    /\ Utils.precision gt gt = Num p /\ Utils.recall gt gt = Num r
    /\ (d == 1)%Q /\ (i == 1)%Q /\ (p == 1)%Q /\ (r == 1)%Q.
Proof.
  intros Hbin Hin.
  pose proof (overlap_self_binary gt Hbin) as Ho.
  destruct (np_sum_binary_pos gt Hbin) as [_ Hpos]. specialize (Hpos Hin).
  unfold Utils.dice_coeff, Utils.intersection_over_union, Utils.precision, Utils.recall.
  rewrite Ho.
  destruct (ratio_same (2 * Utils.np_sum gt) (Utils.np_sum gt + Utils.np_sum gt))
    as (d & Hd & Hd1); [lia|lia|].
  destruct (ratio_same (Utils.np_sum gt)
              (Utils.np_sum gt + Utils.np_sum gt - Utils.np_sum gt))
    as (i & Hi & Hi1); [lia|lia|].
  destruct (ratio_same (Utils.np_sum gt) (Utils.np_sum gt))
    as (p & Hp & Hp1); [lia|lia|].
  exists d, i, p, p. auto 10.
Qed.

(** C8, as the modelled metrics have it: when the prediction map is the
    ground truth itself, a binary map equal to the prediction binarized by
    [value > 0], and the ground truth has at least one foreground pixel, the
    Dice, IoU, precision and recall scores that the evaluator returns for a
    swept threshold 0 are all 1. *)
Theorem perfect_prediction_scores (image : list Q) (gt : list Z) (name : string)
    (thr : list Q) (print_max : bool) (w : world) (k : nat) (t : Q) :
  image = map inject_Z gt ->
  binarize image 0 = gt ->
  In 1%Z gt ->
  thr !! k = Some t -> (t == 0)%Q ->
  exists dice_scores iou_scores precision_scores recall_scores w' d i p r,
    plot_model_performance_semantic Utils.dice_coeff Utils.intersection_over_union
      Utils.precision Utils.recall image gt name (Some thr) print_max w
    = (Ok (dice_scores, iou_scores, precision_scores, recall_scores), w')
    /\ dice_scores !! k = Some (Num d) /\ iou_scores !! k = Some (Num i)
    /\ precision_scores !! k = Some (Num p) /\ recall_scores !! k = Some (Num r)
    /\ (d == 1)%Q /\ (i == 1)%Q /\ (p == 1)%Q /\ (r == 1)%Q.
Proof.
  intros Himg Hbin Hin Hk Ht.
  assert (Hlen : (0 < length thr)%nat).
  { apply lookup_lt_Some in Hk. lia. }
  destruct (sweep_evaluator_run Utils.dice_coeff Utils.intersection_over_union
              Utils.precision Utils.recall image gt name thr print_max w Hlen)
    as (k0 & t0 & tail & _ & _ & Hrun & _).
  assert (Hpred : binarize image t = gt).
  { rewrite (binarize_threshold_eq image t 0 Ht). exact Hbin. }
  assert (Hb : Forall (fun v => v = 0%Z \/ v = 1%Z) gt).
  { apply self_binarized_binary. by rewrite <- Himg. }
  destruct (metrics_of_same_mask gt Hb Hin)
    as (d & i & p & r & Hd & Hi & Hp & Hr & H1).
  do 5 eexists. exists d, i, p, r. split; [exact Hrun|].
  rewrite !list_lookup_fmap, Hk. simpl. rewrite Hpred, Hd, Hi, Hp, Hr. auto 10.
Qed.

Lemma perfect_prediction_scores_witness :
  exists dice_scores iou_scores precision_scores recall_scores w' d i p r,
    plot_model_performance_semantic Utils.dice_coeff Utils.intersection_over_union
      Utils.precision Utils.recall [1; 0; 1]%Q [1; 0; 1]%Z "model"
      (Some [0; 1 # 2]%Q) true {| rc := ∅; drawn := [] |}
    = (Ok (dice_scores, iou_scores, precision_scores, recall_scores), w')
    /\ dice_scores !! 0%nat = Some (Num d) /\ iou_scores !! 0%nat = Some (Num i)
    /\ precision_scores !! 0%nat = Some (Num p) /\ recall_scores !! 0%nat = Some (Num r)
    /\ (d == 1)%Q /\ (i == 1)%Q /\ (p == 1)%Q /\ (r == 1)%Q.
Proof.
  apply (perfect_prediction_scores [1; 0; 1]%Q [1; 0; 1]%Z "model"
           [0; 1 # 2]%Q true {| rc := ∅; drawn := [] |} 0 0%Q).
  - reflexivity.
  - reflexivity.
  - simpl. auto.
  - reflexivity.
  - reflexivity.
Defined.

(** C8, as stated, fails on the all-background map: it is a binary map equal
    to its own binarization, and at threshold 0 each of the four quotients has
    a zero denominator, so no score is 1. *)
Lemma perfect_prediction_of_background_fails :
  [0%Q] = map inject_Z [0%Z]
  /\ binarize [0%Q] 0 = [0%Z]
  /\ (plot_model_performance_semantic Utils.dice_coeff Utils.intersection_over_union
        Utils.precision Utils.recall [0%Q] [0%Z] "model" (Some [0%Q]) false
        {| rc := ∅; drawn := [] |}).1
     = Ok ([NaN], [NaN], [NaN], [NaN]).
Proof. repeat split. Qed.

(** ** The matching-statistics plotter *)

Lemma frames_ret {R : Type} (a : R) : frames (mret a : io R).
Proof. intros w. split; [reflexivity|]. exists []. simpl. by rewrite app_nil_r. Qed.

Lemma frames_lift {R : Type} (r : result R) : frames (lift r).
Proof. intros w. split; [reflexivity|]. exists []. simpl. by rewrite app_nil_r. Qed.

Lemma frames_draw (c : cmd) : frames (draw c).
Proof. intros w. split; [reflexivity|]. by exists [c]. Qed.

Lemma frames_bind {A R : Type} (m : io A) (f : A -> io R) :
  frames m -> (forall a, frames (f a)) -> frames (m ≫= f).
Proof.
  intros Hm Hf w. destruct (Hm w) as [Hrc [new Hnew]].
  unfold mbind, io_bind. destruct (m w) as [[a|e] w1]; simpl in *.
  - destruct (Hf a w1) as [Hrc1 [new1 Hnew1]]. split; [congruence|].
    exists (new ++ new1). rewrite Hnew1, Hnew. by rewrite <- app_assoc.
  - split; [exact Hrc|]. by exists new.
Qed.

Lemma frames_lineplot (data : dataframe) (x y : string) (ax : axes) (label : string) :
  frames (lineplot data x y ax label).
Proof.
  unfold lineplot. destruct (data !! x), (data !! y);
    first [apply frames_draw | apply frames_lift].
Qed.

Lemma frames_for {X : Type} (xs : list X) (body : X -> io unit) :
  (forall x, frames (body x)) -> frames (for_ xs body).
Proof.
  intros Hb. induction xs as [|x xs IH]; simpl.
  - apply frames_ret.
  - apply frames_bind; auto.
Qed.

Lemma succeeds_ret {R : Type} (a : R) : succeeds (mret a : io R).
Proof. intros [r d]. exists a, []. simpl. unfold mret, io_ret. by rewrite app_nil_r. Qed.

Lemma succeeds_draw (c : cmd) : succeeds (draw c).
Proof. intros w. by exists tt, [c]. Qed.

Lemma succeeds_bind {A R : Type} (m : io A) (f : A -> io R) :
  succeeds m -> (forall a, succeeds (f a)) -> succeeds (m ≫= f).
Proof.
  intros Hm Hf w. destruct (Hm w) as (a & new & E).
  destruct (Hf a {| rc := rc w; drawn := drawn w ++ new |}) as (b & new1 & E1).
  exists b, (new ++ new1). unfold mbind, io_bind. rewrite E, E1. simpl.
  by rewrite <- app_assoc.
Qed.

Lemma succeeds_lineplot (data : dataframe) (x y : string) (ax : axes) (label : string) :
  is_Some (data !! x) -> is_Some (data !! y) -> succeeds (lineplot data x y ax label).
Proof.
  intros [xs Hx] [ys Hy]. unfold lineplot. rewrite Hx, Hy. apply succeeds_draw.
Qed.

Lemma succeeds_for {X : Type} (xs : list X) (body : X -> io unit) :
  (forall x, In x xs -> succeeds (body x)) -> succeeds (for_ xs body).
Proof.
  induction xs as [|x xs IH]; simpl; intros Hb.
  - apply succeeds_ret.
  - apply succeeds_bind; [apply Hb; auto|]. intros _. apply IH. auto.
Qed.

Lemma succeeds_lift_bind {A R : Type} (a : A) (f : A -> io R) :
  succeeds (f a) -> succeeds (lift (Ok a) ≫= f).
Proof. intros H w. exact (H w). Qed.

Ltac frame_step :=
  first [ apply frames_ret | apply frames_draw | apply frames_lift
        | apply frames_lineplot | apply frames_for; intros
        | apply frames_bind; [|intros] ].

(** A palette set, then a figure created, then calls that only draw: the
    palette is what remains changed, and the figure is the first thing
    drawn, under the palette. *)
Lemma palette_then_figure {R : Type} (palette : list string)
    (nrows ncols : nat) (wd ht dpi : Z) (rest : nat -> io R) (w : world) :
  (forall fig, frames (rest fig)) ->
  let out := (_ ← set_palette palette; fig ← subplots nrows ncols wd ht dpi; rest fig) w in
  let style := <["axes.prop_cycle" := Cycle palette]> (rc w) in
  rc out.2 = style
  /\ (exists tail, drawn out.2 = drawn w ++ Subplots nrows ncols wd ht dpi style :: tail)
  /\ ((forall fig, succeeds (rest fig)) -> exists fig, out.1 = Ok fig).
Proof.
  intros Hrest out style. destruct w as [r d]. subst out.
  unfold mbind, io_bind, set_palette, get_rc, put_rc, subplots. simpl.
  set (w1 := {| rc := <["axes.prop_cycle" := Cycle palette]> r;
                drawn := d ++ [Subplots nrows ncols wd ht dpi
                                 (<["axes.prop_cycle" := Cycle palette]> r)] |}).
  destruct (Hrest (length d) w1) as [Hrc [new Hnew]].
  split; [exact Hrc|]. split.
  - exists new. rewrite Hnew. simpl. by rewrite <- app_assoc.
  - intros Hs. destruct (Hs (length d) w1) as (a & new' & E). rewrite E. by exists a.
Qed.

Section PlotterFacts.

Variable invert_color : string -> string.
Context {Stats : Type}.
Variable dataset_matching_stats_to_df : Stats -> result dataframe.
Variable DARK_MODE : bool.
Variable dark_background : rcParams.

Local Abbreviation palette := (COLORMAP invert_color DARK_MODE).
Local Abbreviation run :=
  (plot_performance invert_color dataset_matching_stats_to_df DARK_MODE
     dark_background).

(** What a call of [plot_performance] leaves behind, whether it returns or
    raises. *)
Lemma plot_performance_footprint (taus : list Q) (stats : Stats)
    (name metric : string) (stats_list : list string) (w : world) :
  let out := run taus stats name metric stats_list w in
  let entry := if DARK_MODE
               then dark_background ∪ <["axes.prop_cycle" := Cycle palette]> (rc w)
               else rc w in
  rc out.2 = <["axes.prop_cycle" := Cycle palette]> (rc w)
  /\ (exists tail,
        drawn out.2
        = drawn w ++ Subplots 1 2 16 6 DPI
                       (<["axes.prop_cycle" := Cycle palette]> entry) :: tail)
  /\ (forall df,
        dataset_matching_stats_to_df stats = Ok df ->
        (forall c, In c ("thresh" :: stats_list ++ ["fp"; "tp"; "fn"]) ->
                   is_Some (df !! c)) ->
        exists fig, out.1 = Ok fig).
Proof.
  intros out entry. subst out entry. unfold plot_performance, get_style_context.
  generalize (COLORMAP invert_color DARK_MODE). intros p.
  match goal with
  | |- context [with_ _ ?b] => set (body := b)
  end.
  assert (Hbody : forall w1,
    rc (body w1).2 = <["axes.prop_cycle" := Cycle p]> (rc w1)
    /\ (exists tail, drawn (body w1).2
          = drawn w1 ++ Subplots 1 2 16 6 DPI
                          (<["axes.prop_cycle" := Cycle p]> (rc w1)) :: tail)
    /\ (forall df,
          dataset_matching_stats_to_df stats = Ok df ->
          (forall c, In c ("thresh" :: stats_list ++ ["fp"; "tp"; "fn"]) ->
                     is_Some (df !! c)) ->
          exists fig, (body w1).1 = Ok fig)).
  { intros w1. subst body.
    match goal with
    | |- context [subplots 1 2 16 6 DPI ≫= ?r] => set (rest := r)
    end.
    destruct (palette_then_figure p 1 2 16 6 DPI rest w1) as (H1 & H2 & H3).
    - intros fig. subst rest. cbv beta. repeat frame_step.
    - split; [exact H1|]. split; [exact H2|].
      intros df Hdf Hcols. apply H3. intros fig. subst rest. cbv beta.
      apply succeeds_bind; [apply succeeds_draw|]. intros _.
      rewrite Hdf. apply succeeds_lift_bind.
      assert (Hthresh : is_Some (df !! "thresh")) by (apply Hcols; simpl; auto).
      repeat first
        [ apply succeeds_ret
        | apply succeeds_draw
        | apply succeeds_lineplot;
          [exact Hthresh
          | apply Hcols; right; apply in_or_app;
            first [left; assumption | right; assumption]]
        | apply succeeds_for; intros c Hc
        | apply succeeds_bind; [|intros _] ]. }
  clearbody body. destruct w as [r d].
  destruct DARK_MODE;
    unfold mbind, io_bind, set_palette, get_rc, put_rc, mret, io_ret, with_; simpl.
  - set (w1 := {| rc := dark_background ∪ <["axes.prop_cycle" := Cycle p]> r;
                  drawn := d |}).
    destruct (Hbody w1) as (H1 & H2 & H3).
    destruct (body w1) as [res w2] eqn:E. simpl in *.
    split; [reflexivity|]. split; [exact H2|exact H3].
  - set (w1 := {| rc := <["axes.prop_cycle" := Cycle p]> r; drawn := d |}).
    destruct (Hbody w1) as (H1 & H2 & H3). simpl in *.
    rewrite insert_insert_eq in H1, H2.
    split; [exact H1|]. split; [|exact H3].
    exact H2.
Qed.

End PlotterFacts.

(** C9, as the code has it: a call of [plot_performance], whether it returns
    or raises, leaves every styling global other than the colour cycle as it
    was before the call, so the dark-background sheet is in force during the
    call only; the colour cycle is set to the module palette for the call and
    stays so after it. The figure is created under the palette and, in dark
    mode, under the sheet. *)
Theorem plot_call_styling (invert_color : string -> string) {Stats : Type}
    (dataset_matching_stats_to_df : Stats -> result dataframe)
    (DARK_MODE : bool) (dark_background : rcParams)
    (taus : list Q) (stats : Stats) (name metric : string)
    (stats_list : list string) (w : world) :
  let palette := Cycle (COLORMAP invert_color DARK_MODE) in
  let w' := (plot_performance invert_color dataset_matching_stats_to_df DARK_MODE
               dark_background taus stats name metric stats_list w).2 in
  rc w' !! "axes.prop_cycle" = Some palette
  /\ (forall key, key <> "axes.prop_cycle" -> rc w' !! key = rc w !! key)
  /\ exists style tail,
       drawn w' = drawn w ++ Subplots 1 2 16 6 DPI style :: tail
       /\ style !! "axes.prop_cycle" = Some palette
       /\ forall key, key <> "axes.prop_cycle" ->
            style !! key = if DARK_MODE then (dark_background ∪ rc w) !! key
                           else rc w !! key.
Proof.
  intros palette w'.
  destruct (plot_performance_footprint invert_color dataset_matching_stats_to_df
              DARK_MODE dark_background taus stats name metric stats_list w)
    as (Hrc & [tail Hdrawn] & _).
  fold w' in Hrc, Hdrawn. fold palette in Hrc, Hdrawn.
  split; [rewrite Hrc; apply lookup_insert_eq|].
  split; [intros key Hkey; rewrite Hrc; by apply lookup_insert_ne|].
  eexists _, tail. split; [exact Hdrawn|].
  split; [apply lookup_insert_eq|].
  intros key Hkey. rewrite lookup_insert_ne by done.
  destruct DARK_MODE; [|reflexivity].
  rewrite !lookup_union. by rewrite lookup_insert_ne.
Qed.

Lemma plot_call_styling_witness :
  let w0 := {| rc := {["axes.facecolor" := Color "white"]}; drawn := [] |} in
  let w' := (plot_performance id Ok true {["axes.facecolor" := Color "black"]}
               [1 # 2; 7 # 10]%Q sample_table "model" "IoU" default_stats_list w0).2 in
  rc w' !! "axes.prop_cycle" = Some (Cycle (COLORMAP id true))
  /\ rc w' !! "axes.facecolor" = Some (Color "white")
  /\ exists style tail,
       drawn w' = drawn w0 ++ Subplots 1 2 16 6 DPI style :: tail
       /\ style !! "axes.facecolor" = Some (Color "black").
Proof.
  intros w0 w'.
  destruct (plot_call_styling id Ok true {["axes.facecolor" := Color "black"]}
              [1 # 2; 7 # 10]%Q sample_table "model" "IoU" default_stats_list w0)
    as (Hp & Hother & style & tail & Hdrawn & _ & Hstyle).
  split; [exact Hp|]. split.
  - etransitivity; [apply (Hother "axes.facecolor"); discriminate|]. reflexivity.
  - exists style, tail. split; [exact Hdrawn|].
    etransitivity; [apply (Hstyle "axes.facecolor"); discriminate|]. reflexivity.
Defined.

(** C9, as stated, fails: the colour cycle in force before a call is not put
    back when the call ends, neither in regular mode nor in dark mode. *)
Lemma palette_outlives_plot_call :
  let w0 := {| rc := {["axes.prop_cycle" := Cycle ["#000000"]]}; drawn := [] |} in
  let regular := plot_performance id Ok false ∅ [1 # 2; 7 # 10]%Q sample_table
                   "model" "IoU" default_stats_list w0 in
  let dark := plot_performance id Ok true {["axes.facecolor" := Color "black"]}
                [1 # 2; 7 # 10]%Q sample_table "model" "IoU" default_stats_list w0 in
  regular.1 = Ok 0%nat
  /\ rc regular.2 !! "axes.prop_cycle" = Some (Cycle COLORMAP_LIGHT)
  /\ rc regular.2 <> rc w0
  /\ dark.1 = Ok 0%nat
  /\ rc dark.2 !! "axes.prop_cycle" = Some (Cycle COLORMAP_LIGHT)
  /\ rc dark.2 <> rc w0.
Proof.
  intros w0 regular dark.
  assert (R1 : regular.1 = Ok 0%nat) by (vm_compute; reflexivity).
  assert (R2 : rc regular.2 !! "axes.prop_cycle" = Some (Cycle COLORMAP_LIGHT))
    by (vm_compute; reflexivity).
  assert (D1 : dark.1 = Ok 0%nat) by (vm_compute; reflexivity).
  assert (D2 : rc dark.2 !! "axes.prop_cycle" = Some (Cycle COLORMAP_LIGHT))
    by (vm_compute; reflexivity).
  assert (W0 : rc w0 !! "axes.prop_cycle" = Some (Cycle ["#000000"]))
    by apply lookup_singleton_eq.
  assert (Hne : Some (Cycle COLORMAP_LIGHT) <> Some (Cycle ["#000000"])).
  { intros E.
    apply (f_equal (fun o => match o with
                             | Some (Cycle cs) => length cs
                             | _ => 0%nat
                             end)) in E.
    discriminate E. }
  split; [exact R1|]. split; [exact R2|]. split; [congruence|].
  split; [exact D1|]. split; [exact D2|]. congruence.
Qed.

(** The threshold sequence is not read by [plot_performance]. *)
Lemma plot_performance_ignores_taus (invert_color : string -> string) {Stats : Type}
    (dataset_matching_stats_to_df : Stats -> result dataframe)
    (DARK_MODE : bool) (dark_background : rcParams)
    (taus taus' : list Q) (stats : Stats) (name metric : string)
    (stats_list : list string) :
  plot_performance invert_color dataset_matching_stats_to_df DARK_MODE
    dark_background taus stats name metric stats_list
  = plot_performance invert_color dataset_matching_stats_to_df DARK_MODE
      dark_background taus' stats name metric stats_list.
Proof. reflexivity. Qed.

(** * Further properties *)

(** ** The converter on any number of volumes *)

Lemma turns_length {T : Type} (images : list (list T)) :
  length (turns images) = length (concat images).
Proof.
  unfold turns. rewrite <- (turns_from_slices images 0). by rewrite length_fmap.
Qed.

(** X1: given no identifiers, or at least one per volume, [convert_2d]
    returns the slices of all the volumes, volume after volume and slice
    after slice, each cast with the target type; there are as many as the
    slice counts add up to, and the identifiers do not change them. *)
Theorem convert_2d_flattens {A B : Type} (dtype : A -> B)
    (images : list (volume A)) (names : option (list string)) :
  (forall l, names = Some l -> (length images <= length l)%nat) ->
  exists names_2d,
    convert_2d dtype images names
    = Ok (map (map (map dtype)) (concat images), names_2d)
    /\ length (map (map (map dtype)) (concat images))
       = sum_list (map length images).
Proof.
  intros Hlen.
  assert (Hsum : length (map (map (map dtype)) (concat images))
                 = sum_list (map length images)).
  { rewrite length_map. induction images as [|v images IH]; simpl; [reflexivity|].
    rewrite length_app. f_equal. apply IH. intros l Hl. specialize (Hlen l Hl).
    simpl in Hlen. lia. }
  destruct names as [names|].
  - eexists. split; [|exact Hsum].
    rewrite convert_2d_named by (apply Hlen; reflexivity).
    by rewrite turns_images.
  - eexists. split; [|exact Hsum]. by rewrite convert_2d_unnamed, turns_images.
Qed.

Lemma convert_2d_flattens_witness :
  exists names_2d,
    convert_2d Z.of_nat [[[[1; 2]]; [[3; 4]]]; []; [[[5; 6]]]]
      (Some ["x/a.tif"; "x/b.tif"; "x/c.tif"])
    = Ok (map (map (map Z.of_nat)) (concat [[[[1; 2]]; [[3; 4]]]; []; [[[5; 6]]]]),
          names_2d)
    /\ length (map (map (map Z.of_nat)) (concat [[[[1; 2]]; [[3; 4]]]; []; [[[5; 6]]]]))
       = sum_list (map length [[[[1; 2]]; [[3; 4]]]; []; [[[5; 6]]]]).
Proof.
  apply (convert_2d_flattens Z.of_nat [[[[1; 2]]; [[3; 4]]]; []; [[[5; 6]]]]
           (Some ["x/a.tif"; "x/b.tif"; "x/c.tif"])).
  intros l [= <-]. simpl. lia.
Defined.

(** Every slice of every volume is met by a turn of the loops. *)
Lemma turns_from_complete {T : Type} (images : list (list T)) (i0 i j : nat)
    (image : list T) (x : T) :
  images !! i = Some image -> image !! j = Some x ->
  ((i0 + i)%nat, j, x) ∈ turns_from i0 images.
Proof.
  revert i0 i. induction images as [|v images IH]; intros i0 [|i] Hi Hj; simpl in *;
    try discriminate.
  - injection Hi as ->. apply elem_of_app. left.
    rewrite Nat.add_0_r. apply list_elem_of_fmap. exists (j, x). split; [reflexivity|].
    apply list_elem_of_lookup. exists j. unfold enumerate.
    rewrite enumerate_from_lookup, Hj. reflexivity.
  - apply elem_of_app. right. replace (i0 + S i)%nat with (S i0 + i)%nat by lia.
    by apply IH.
Qed.

(** The turns stay below the identifiers exactly when the identifiers cover
    the volumes that have slices. *)
Lemma turns_covered_iff {T : Type} (images : list (list T)) (names : list string) :
  (forall i j x, (i, j, x) ∈ turns images -> (i < length names)%nat)
  <-> identifiers_cover images names.
Proof.
  split.
  - intros H i image Hi Hne. destruct image as [|x image]; [contradiction|].
    apply (H i 0%nat x). apply (turns_from_complete images 0 i 0 (x :: image) x Hi).
    reflexivity.
  - intros H i j x Hin. destruct (turns_lookup _ _ _ _ Hin) as (image & Hi & Hj).
    apply (H i image Hi). intros ->. discriminate.
Qed.

(** One pass over turns of which one has no identifier raises [IndexError]. *)
Lemma convert_turns_uncovered {A B : Type} (dtype : A -> B) (names : list string)
    (l : list (nat * nat * slice2d A)) (acc : list (slice2d B)) (accn : list string) :
  (exists i j x, (i, j, x) ∈ l /\ (length names <= i)%nat) ->
  for_each l (fun '(i, j, x) => convert_slice dtype (Some names) i (j, x))
    (acc, Some accn) = Raise IndexError.
Proof.
  revert acc accn. induction l as [|[[i j] x] l IH]; intros acc accn (i' & j' & x' & Hin & Hle).
  - by apply elem_of_nil in Hin.
  - simpl. unfold getitem. destruct (names !! i) as [p|] eqn:Hp; simpl; [|reflexivity].
    apply IH. apply elem_of_cons in Hin as [E|Hin].
    + injection E as -> -> ->. apply lookup_lt_Some in Hp. lia.
    + eauto.
Qed.

(** X2: with identifiers given, [convert_2d] returns exactly when every
    volume that has at least one slice has an identifier; otherwise the
    subscript [images_names[i]] raises [IndexError]. Volumes without slices
    need no identifier. *)
Theorem convert_2d_identifier_coverage {A B : Type} (dtype : A -> B)
    (images : list (volume A)) (names : list string) :
  (identifiers_cover images names
   /\ returns (convert_2d dtype images (Some names)))
  \/ (~ identifiers_cover images names
      /\ convert_2d dtype images (Some names) = Raise IndexError).
Proof.
  destruct (decide (Forall (fun t : nat * nat * slice2d A => (t.1.1 < length names)%nat)
                      (turns images))) as [Hall|Hnot].
  - left. rewrite Forall_forall in Hall.
    assert (Hc : forall i j x, (i, j, x) ∈ turns images -> (i < length names)%nat).
    { intros i j x Hin. apply (Hall (i, j, x) Hin). }
    split; [by apply turns_covered_iff|].
    unfold convert_2d, enumerate at 1.
    rewrite (nested_loops_flatten (convert_slice dtype (Some names))).
    fold (turns images). rewrite (convert_turns_named dtype names _ _ _ Hc).
    by eexists.
  - right. apply not_Forall_Exists in Hnot; [|intros t; apply _].
    apply Exists_exists in Hnot as ([[i j] x] & Hin & Hge). simpl in Hge.
    split.
    + intros Hcov. pose proof (proj2 (turns_covered_iff images names) Hcov i j x Hin).
      lia.
    + unfold convert_2d, enumerate at 1.
      rewrite (nested_loops_flatten (convert_slice dtype (Some names))).
      apply convert_turns_uncovered. exists i, j, x. split; [exact Hin|lia].
Qed.

(** ** The per-slice identifiers *)

Lemma list_ascii_of_append (a b : string) :
  list_ascii_of_string (a +:+ b) = list_ascii_of_string a ++ list_ascii_of_string b.
Proof. induction a as [|c a IH]; simpl; [reflexivity|]. by rewrite IH. Qed.

(** The decimal digits of an index hold no underscore. *)
Lemma digits_no_underscore (d : Decimal.uint) :
  "_"%char ∉ list_ascii_of_string (NilEmpty.string_of_uint d).
Proof.
  induction d; simpl; try apply not_elem_of_nil;
    (apply not_elem_of_cons; split; [discriminate|assumption]).
Qed.

Lemma str_of_nat_inj (j j' : nat) : str_of_nat j = str_of_nat j' -> j = j'.
Proof.
  unfold str_of_nat. intros E.
  assert (E' : Some (Nat.to_uint j) = Some (Nat.to_uint j')).
  { rewrite <- !NilEmpty.usu. by rewrite E. }
  injection E' as E'. rewrite <- (DecimalNat.Unsigned.of_to j), E'.
  apply DecimalNat.Unsigned.of_to.
Qed.

(** Two lists cut at the first occurrence of a separator agree part by part. *)
Lemma first_separator_split {X : Type} (c : X) (l1 l2 r1 r2 : list X) :
  c ∉ l1 -> c ∉ l2 -> l1 ++ c :: r1 = l2 ++ c :: r2 -> l1 = l2 /\ r1 = r2.
Proof.
  revert l2. induction l1 as [|a l1 IH]; intros [|b l2] H1 H2 E; simpl in E.
  - injection E as ->. auto.
  - injection E as -> _. exfalso. apply H2. apply list_elem_of_here.
  - injection E as -> _. exfalso. apply H1. apply list_elem_of_here.
  - injection E as -> E. apply not_elem_of_cons in H1 as [_ H1].
    apply not_elem_of_cons in H2 as [_ H2].
    destruct (IH l2 H1 H2 E) as [-> ->]. auto.
Qed.

(** In a formatted name the last underscore separates the characters of the
    stem from the digits of the index. *)
Lemma slice_name_parts (source source' : string) (j j' : nat) :
  slice_name source j = slice_name source' j' ->
  list_ascii_of_string (Pathlib.stem source)
  = list_ascii_of_string (Pathlib.stem source')
  /\ list_ascii_of_string (str_of_nat j) = list_ascii_of_string (str_of_nat j').
Proof.
  unfold slice_name. intros E.
  apply (f_equal list_ascii_of_string) in E.
  rewrite !list_ascii_of_append in E. simpl in E.
  apply (f_equal (@rev ascii)) in E.
  rewrite !rev_app_distr in E. simpl in E. rewrite <- !app_assoc in E. simpl in E.
  rewrite !rev_app_distr in E. simpl in E. injection E as E.
  apply first_separator_split in E as [Ed Es].
  - apply (f_equal (@rev ascii)) in Ed, Es. rewrite !rev_involutive in Ed, Es. auto.
  - intros H. apply list_elem_of_In, in_rev, list_elem_of_In in H.
    by apply digits_no_underscore in H.
  - intros H. apply list_elem_of_In, in_rev, list_elem_of_In in H.
    by apply digits_no_underscore in H.
Qed.

(** X3: a per-slice identifier determines the stem of its source and the
    index of its slice: two slices get the same identifier only if their
    sources have the same stem and their slice indices are equal, also when
    a stem itself holds underscores or digits. *)
Theorem slice_name_determines_origin (source source' : string) (j j' : nat) :
  (Pathlib.stem source +:+ "_" +:+ str_of_nat j +:+ ".tif")
  = (Pathlib.stem source' +:+ "_" +:+ str_of_nat j' +:+ ".tif") ->
  Pathlib.stem source = Pathlib.stem source' /\ j = j'.
Proof.
  intros E. destruct (slice_name_parts source source' j j' E) as [Es Ed].
  apply (f_equal string_of_list_ascii) in Ed, Es.
  rewrite !string_of_list_ascii_of_string in Ed, Es.
  split; [exact Es|].
  unfold str_of_nat in Ed.
  assert (E' : Some (Nat.to_uint j) = Some (Nat.to_uint j')).
  { rewrite <- !NilEmpty.usu. by rewrite Ed. }
  injection E' as E'.
  rewrite <- (DecimalNat.Unsigned.of_to j), E'. apply DecimalNat.Unsigned.of_to.
Qed.

Lemma slice_name_determines_origin_witness :
  Pathlib.stem "img/a.tif" = Pathlib.stem "labels/a.tif" /\ 3%nat = 3%nat.
Proof.
  apply (slice_name_determines_origin "img/a.tif" "labels/a.tif" 3 3).
  reflexivity.
Defined.

(** The index pairs of the turns are pairwise distinct. *)
Lemma turns_from_indices_nodup {T : Type} (images : list (list T)) (i0 : nat) :
  NoDup (turns_from i0 images).*1.
Proof.
  revert i0. induction images as [|image images IH]; intros i0; simpl.
  - constructor.
  - rewrite fmap_app. apply NoDup_app. split; [|split].
    + unfold enumerate. generalize 0%nat.
      induction image as [|x image IHi]; intros n; simpl; [constructor|].
      constructor; [|apply IHi].
      intros Hin. apply list_elem_of_fmap in Hin as ([[i j] y] & E & Hin).
      apply list_elem_of_fmap in Hin as ([j' y'] & E' & Hin).
      injection E' as -> -> ->. simpl in E. injection E as ->.
      apply list_elem_of_lookup in Hin as [k Hk].
      rewrite enumerate_from_lookup in Hk.
      destruct (image !! k); simpl in Hk; [|discriminate]. injection Hk as Hk _. lia.
    + intros [i j] Hl Hr.
      apply list_elem_of_fmap in Hl as ([[i1 j1] y] & E & Hl). simpl in E.
      injection E as -> ->.
      apply list_elem_of_fmap in Hl as ([j' y'] & E' & _). injection E' as -> _ _.
      apply list_elem_of_fmap in Hr as ([[i2 j2] z] & E & Hr). simpl in E.
      injection E as -> ->.
      apply turns_from_lookup in Hr as (_ & Hle & _). lia.
    + apply IH.
Qed.

(** X4: when the source identifiers of the volumes have pairwise distinct
    stems, the per-slice identifiers that [convert_2d] returns are pairwise
    distinct. *)
Theorem slice_identifiers_distinct {A B : Type} (dtype : A -> B)
    (images : list (volume A)) (names : list string) :
  length names = length images ->
  NoDup (map Pathlib.stem names) ->
  exists out names_2d,
    convert_2d dtype images (Some names) = Ok (out, Some names_2d)
    /\ NoDup names_2d.
Proof.
  intros Hlen Hnd. do 2 eexists. split; [apply convert_2d_named; lia|].
  apply (NoDup_fmap_2_strong
           (fun t : nat * nat * slice2d A => slice_name (source_at names t.1.1) t.1.2)).
  - intros [[i j] x] [[i' j'] x'] Hin Hin' E. simpl in E.
    apply slice_name_parts in E as [Es Ed].
    apply (f_equal string_of_list_ascii) in Ed, Es.
    rewrite !string_of_list_ascii_of_string in Ed, Es.
    apply str_of_nat_inj in Ed as ->.
    destruct (turns_lookup _ _ _ _ Hin) as (v & Hv & Hx).
    destruct (turns_lookup _ _ _ _ Hin') as (v' & Hv' & Hx').
    unfold volume in *.
    assert (Hi : (i < length names)%nat) by (apply lookup_lt_Some in Hv; lia).
    assert (Hi' : (i' < length names)%nat) by (apply lookup_lt_Some in Hv'; lia).
    destruct (lookup_lt_is_Some_2 names i Hi) as [p Hp].
    destruct (lookup_lt_is_Some_2 names i' Hi') as [p' Hp'].
    unfold source_at in Es. rewrite Hp, Hp' in Es. simpl in Es.
    assert (i = i') as <-.
    { eapply (NoDup_lookup _ i i' (Pathlib.stem p) Hnd).
      - by rewrite list_lookup_fmap, Hp.
      - by rewrite list_lookup_fmap, Hp', Es. }
    congruence.
  - apply (NoDup_fmap_1 fst). apply turns_from_indices_nodup.
Qed.

Lemma slice_identifiers_distinct_witness :
  exists out names_2d,
    convert_2d Z.of_nat [[[[1; 2]]; [[3; 4]]]; [[[5; 6]]]] (Some ["x/a.tif"; "x/b.tif"])
    = Ok (out, Some names_2d)
    /\ NoDup names_2d.
Proof.
  apply (slice_identifiers_distinct Z.of_nat [[[[1; 2]]; [[3; 4]]]; [[[5; 6]]]]
           ["x/a.tif"; "x/b.tif"]).
  - reflexivity.
  - apply (bool_decide_unpack (NoDup (map Pathlib.stem ["x/a.tif"; "x/b.tif"]))).
    vm_compute. exact I.
Defined.

(** X5: when image and label volumes have equal slice counts volume for
    volume and their files have equal stems volume for volume, the two
    conversions return the same list of per-slice identifiers. *)
Theorem paired_identifiers_equal {A A' B B' : Type}
    (float32 : A -> B) (uint16 : A' -> B')
    (X : list (volume A)) (Y : list (volume A')) (X_paths Y_paths : list string) :
  length X_paths = length X ->
  length Y_paths = length Y ->
  Forall2 (fun x y => length x = length y) X Y ->
  Forall2 (fun p q => Pathlib.stem p = Pathlib.stem q) X_paths Y_paths ->
  exists X_2d Y_2d names_2d,
    convert_2d float32 X (Some X_paths) = Ok (X_2d, Some names_2d)
    /\ convert_2d uint16 Y (Some Y_paths) = Ok (Y_2d, Some names_2d).
Proof.
  intros HX HY Hshape Hstems. do 3 eexists.
  split; [apply convert_2d_named; lia|].
  rewrite convert_2d_named by lia. f_equal. f_equal. f_equal.
  pose proof (turns_from_same_shape X Y 0 Hshape) as Hsame.
  fold (turns X) (turns Y) in Hsame.
  assert (Hname : forall i j, (i < length X)%nat ->
            slice_name (source_at Y_paths i) j = slice_name (source_at X_paths i) j).
  { intros i j Hi. unfold slice_name, source_at.
    destruct (lookup_lt_is_Some_2 X_paths i ltac:(lia)) as [p Hp].
    destruct (Forall2_lookup_l _ _ _ _ _ Hstems Hp) as (q & Hq & E).
    rewrite Hp, Hq. simpl. by rewrite E. }
  transitivity (map (fun ij : nat * nat => slice_name (source_at X_paths ij.1) ij.2)
                  (turns Y).*1).
  - rewrite <- list_fmap_compose. apply list_fmap_ext. intros k [[i j] y] Hk. simpl.
    apply Hname.
    assert (Hin : (i, j) ∈ (turns X).*1).
    { rewrite Hsame. apply list_elem_of_fmap. exists (i, j, y). split; [reflexivity|].
      eapply list_elem_of_lookup_2; eauto. }
    apply list_elem_of_fmap in Hin as ([[i' j'] x] & E & Hin). simpl in E.
    injection E as <- <-.
    destruct (turns_lookup _ _ _ _ Hin) as (v & Hv & _). by apply lookup_lt_Some in Hv.
  - rewrite <- Hsame. rewrite <- list_fmap_compose. reflexivity.
Qed.

Lemma paired_identifiers_equal_witness :
  exists X_2d Y_2d names_2d,
    convert_2d Z.of_nat [[[[1; 2]]; [[3; 4]]]; [[[5; 6]]]] (Some ["x/a.tif"; "x/b.tif"])
    = Ok (X_2d, Some names_2d)
    /\ convert_2d Z.of_nat [[[[0; 1]]; [[1; 1]]]; [[[2; 0]]]]
         (Some ["x/labels/a.tif"; "x/labels/b.tif"])
       = Ok (Y_2d, Some names_2d).
Proof.
  apply (paired_identifiers_equal Z.of_nat Z.of_nat
           [[[[1; 2]]; [[3; 4]]]; [[[5; 6]]]] [[[[0; 1]]; [[1; 1]]]; [[[2; 0]]]]
           ["x/a.tif"; "x/b.tif"] ["x/labels/a.tif"; "x/labels/b.tif"]).
  - reflexivity.
  - reflexivity.
  - repeat constructor.
  - repeat constructor.
Defined.

(** ** The split, without conditions on the sign or the size of the fraction *)

(** X6: for a sequence shorter than [2 ** 53], empty or not, and a fraction
    of magnitude at most [2 ** 970], in (0, 1] or not, the float product of
    line 48 is finite, of magnitude at most [2 ** 1023], and the two slices
    of line 49 cut the sequence in two: train followed by validation is the
    sequence, validation holds [min(n_val, L)] elements with [n_val >= 1],
    and validation is empty only when the sequence is. *)
Theorem split_always_partitions {X : Type} (f : Q) (ind : list X) :
  (Qabs f <= pow2 970)%Q -> (Z.of_nat (length ind) < 2 ^ 53)%Z ->
  (Qabs (double_product f (length ind)) <= pow2 1023)%Q
  /\ (split_indices f ind).1 ++ (split_indices f ind).2 = ind
  /\ (1 <= n_val_of f ind)%Z
  /\ length (split_indices f ind).2
     = Nat.min (Z.to_nat (n_val_of f ind)) (length ind)
  /\ ((split_indices f ind).2 = [] <-> ind = []).
Proof.
  intros Hf H53.
  assert (Hfin : (Qabs (double_product f (length ind)) <= pow2 1023)%Q).
  { unfold double_product.
    destruct (Z.ltb_spec (Z.of_nat (length ind)) (2 ^ 53)) as [_|?]; [|lia].
    apply round_double_bounded; [lia|].
    pose proof (round_double_bounded f 970 ltac:(lia) Hf) as Hfd.
    rewrite Qabs_Qmult.
    replace 1023%Z with (970 + 53)%Z by reflexivity. rewrite pow2_add.
    assert (HL : (Qabs (inject_Z (Z.of_nat (length ind))) <= pow2 53)%Q).
    { rewrite Qabs_pos by (rewrite <- (Zle_Qle 0); lia).
      rewrite (pow2_nonneg_Z 53) by lia. rewrite <- Zle_Qle. lia. }
    apply Qle_trans with (pow2 970 * Qabs (inject_Z (Z.of_nat (length ind))))%Q.
    - apply Qmult_le_compat_r; [exact Hfd|apply Qabs_nonneg].
    - apply Qmult_le_l; [apply pow2_pos|exact HL]. }
  split; [exact Hfin|].
  assert (Hn : (1 <= n_val_of f ind)%Z) by (unfold n_val_of; lia).
  unfold split_indices, slice_until, slice_since. cbv zeta. cbn [fst snd].
  assert (Hb : slice_bound (length ind) (- n_val_of f ind)
               = (length ind - Z.to_nat (n_val_of f ind))%nat).
  { unfold slice_bound. destruct (Z.ltb_spec (- n_val_of f ind) 0); lia. }
  rewrite Hb.
  assert (Hl : length (drop (length ind - Z.to_nat (n_val_of f ind)) ind)
               = Nat.min (Z.to_nat (n_val_of f ind)) (length ind))
    by (rewrite length_drop; lia).
  split; [apply take_drop|]. split; [exact Hn|]. split; [exact Hl|].
  split.
  - intros E. rewrite E in Hl. simpl in Hl. destruct ind; [reflexivity|].
    simpl in Hl. lia.
  - intros ->. reflexivity.
Qed.

Lemma split_always_partitions_witness :
  (split_indices (3 # 2) (py_range 4)).1 ++ (split_indices (3 # 2) (py_range 4)).2
  = py_range 4
  /\ length (split_indices (3 # 2) (py_range 4)).2 = 4%nat
  /\ ((split_indices (3 # 2) (py_range 4)).2 = [] <-> py_range 4 = []).
Proof.
  destruct (split_always_partitions (3 # 2) (py_range 4)) as (_ & H1 & _ & H3 & H4).
  - apply Qle_bool_imp_le. vm_compute. reflexivity.
  - vm_compute. reflexivity.
  - split; [exact H1|]. split; [|exact H4].
    rewrite H3. vm_compute. reflexivity.
Defined.

(** ** The script: assertion and hand-over *)

(** X7: with one identifier per volume and equal slice counts volume for
    volume, the script gets past its assertion and hands the trainer, for
    the images, the labels and the slice identifiers alike, the two parts
    that the split assigner cuts: the same cut for the three, so that the
    image, the label and the identifier of a slice stay together. *)
Theorem script_hands_over_aligned_parts {A T U : Type}
    (float32 : A -> T) (uint16 : A -> U)
    (f : Q) (X Y : list (volume A)) (X_paths Y_paths : list string) :
  length X_paths = length X -> length Y_paths = length Y ->
  Forall2 (fun x y => length x = length y) X Y ->
  exists d X_2d Y_2d X_paths_2d Y_paths_2d,
    convert_2d float32 X (Some X_paths) = Ok (X_2d, Some X_paths_2d)
    /\ convert_2d uint16 Y (Some Y_paths) = Ok (Y_2d, Some Y_paths_2d)
    /\ main_split float32 uint16 f X Y X_paths Y_paths = Ok d
    /\ (X_trn d, X_val d) = split_indices f X_2d
    /\ (Y_trn d, Y_val d) = split_indices f Y_2d
    /\ (X_trn_paths d, X_val_paths d) = split_indices f X_paths_2d
    /\ length (X_trn d) = length (Y_trn d)
    /\ length (X_trn d) = length (X_trn_paths d)
    /\ length (X_val d) = length (Y_val d)
    /\ length (X_val d) = length (X_val_paths d).
Proof.
  intros HX HY Hshape.
  destruct (main_split_partition float32 uint16 f X Y X_paths Y_paths HX HY Hshape)
    as (d & X_2d & Y_2d & Xn & Yn & HrX & HrY & Hmain & EX & EY & EN & AX & AY & AN).
  exists d, X_2d, Y_2d, Xn, Yn.
  repeat (split; [assumption|]).
  assert (HlY : length Y_2d = length X_2d).
  { pose proof (convert_2d_named float32 X X_paths ltac:(lia)) as H1.
    pose proof (convert_2d_named uint16 Y Y_paths ltac:(lia)) as H2.
    rewrite HrX in H1. rewrite HrY in H2.
    injection H1 as -> _. injection H2 as -> _. rewrite !length_map.
    rewrite <- (length_fmap fst (turns X)), <- (length_fmap fst (turns Y)).
    unfold turns. by rewrite (turns_from_same_shape X Y 0 Hshape). }
  assert (HlN : length Xn = length X_2d).
  { pose proof (convert_2d_named float32 X X_paths ltac:(lia)) as H1.
    rewrite HrX in H1. injection H1 as -> ->. by rewrite !length_map. }
  assert (Hcut : forall {V W : Type} (l : list V) (l' : list W),
            length l = length l' ->
            length (split_indices f l).1 = length (split_indices f l').1
            /\ length (split_indices f l).2 = length (split_indices f l').2).
  { intros V W l l' E. unfold split_indices, slice_until, slice_since, n_val_of.
    simpl. rewrite !length_take, !length_drop, E. auto. }
  destruct (Hcut _ _ X_2d Y_2d ltac:(lia)) as [H1 H2].
  destruct (Hcut _ _ X_2d Xn ltac:(lia)) as [H3 H4].
  rewrite <- EX, <- EY in H1, H2. rewrite <- EX, <- EN in H3, H4. simpl in *.
  auto.
Qed.

Lemma script_hands_over_aligned_parts_witness :
  exists d,
    main_split Z.of_nat Z.of_nat VAL_PERCENT
      [[[[1; 2]]; [[3; 4]]]; [[[5; 6]]]] [[[[0; 1]]; [[1; 1]]]; [[[2; 0]]]]
      ["x/a.tif"; "x/b.tif"] ["x/labels/a.tif"; "x/labels/b.tif"] = Ok d
    /\ length (X_trn d) = length (Y_trn d)
    /\ length (X_val d) = length (X_val_paths d).
Proof.
  destruct (script_hands_over_aligned_parts Z.of_nat Z.of_nat VAL_PERCENT
              [[[[1; 2]]; [[3; 4]]]; [[[5; 6]]]] [[[[0; 1]]; [[1; 1]]]; [[[2; 0]]]]
              ["x/a.tif"; "x/b.tif"] ["x/labels/a.tif"; "x/labels/b.tif"])
    as (d & _ & _ & _ & _ & _ & _ & Hmain & _ & _ & _ & H1 & _ & _ & H4).
  - reflexivity.
  - reflexivity.
  - repeat constructor.
  - exists d. auto.
Defined.

(** X8: with one identifier per volume on both sides, the assertion of the
    script looks at the total number of slices only: the script gets past it
    exactly when the image volumes and the label volumes hold as many slices
    in all, whatever the slice counts volume by volume, and stops with
    [AssertionError] otherwise. *)
Theorem script_assertion_checks_totals {A T U : Type}
    (float32 : A -> T) (uint16 : A -> U)
    (f : Q) (X Y : list (volume A)) (X_paths Y_paths : list string) :
  length X_paths = length X -> length Y_paths = length Y ->
  (length (concat X) = length (concat Y)
   /\ returns (main_split float32 uint16 f X Y X_paths Y_paths))
  \/ (length (concat X) <> length (concat Y)
      /\ main_split float32 uint16 f X Y X_paths Y_paths = Raise AssertionError).
Proof.
  intros HX HY.
  pose proof (convert_2d_named float32 X X_paths ltac:(lia)) as HrX.
  pose proof (convert_2d_named uint16 Y Y_paths ltac:(lia)) as HrY.
  set (X_2d := map (fun t => astype float32 t.2) (turns X)) in *.
  set (Y_2d := map (fun t => astype uint16 t.2) (turns Y)) in *.
  set (Xn := map (fun t => slice_name (source_at X_paths t.1.1) t.1.2) (turns X)) in *.
  assert (HlX : length X_2d = length (concat X))
    by (unfold X_2d; by rewrite length_map, turns_length).
  assert (HlY : length Y_2d = length (concat Y))
    by (unfold Y_2d; by rewrite length_map, turns_length).
  assert (HlN : length Xn = length X_2d) by (unfold X_2d, Xn; by rewrite !length_map).
  unfold main_split. rewrite HrX, HrY. simpl.
  destruct (Nat.eqb_spec (length X_2d) (length Y_2d)) as [E|E]; simpl.
  - left. split; [lia|].
    unfold split_indices. cbv zeta.
    assert (Hlen : length (py_range (length X_2d)) = length X_2d) by apply length_seq.
    unfold slice_until, slice_since. rewrite Hlen.
    set (k := slice_bound (length X_2d) (- n_val_of f (py_range (length X_2d)))).
    assert (Hk : (k <= length X_2d)%nat) by apply slice_bound_le.
    destruct (gather_split X_2d k Hk) as [E1 E2].
    destruct (gather_split Y_2d k ltac:(lia)) as [E3 E4].
    destruct (gather_split Xn k ltac:(lia)) as [E5 E6].
    rewrite <- E in E3, E4. rewrite HlN in E5, E6.
    rewrite E2, E4, E1, E3. simpl. rewrite E5, E6. by eexists.
  - right. split; [lia|reflexivity].
Qed.

Lemma script_assertion_checks_totals_witness :
  (length (concat [[[[1; 2]]; [[3; 4]]]; [[[5; 6]]]])
   = length (concat [[[[0; 1]]]; [[[2; 0]]; [[7; 7]]]])
   /\ returns (main_split Z.of_nat Z.of_nat VAL_PERCENT
                 [[[[1; 2]]; [[3; 4]]]; [[[5; 6]]]] [[[[0; 1]]]; [[[2; 0]]; [[7; 7]]]]
                 ["x/a.tif"; "x/b.tif"] ["x/labels/a.tif"; "x/labels/b.tif"]))
  \/ (length (concat [[[[1; 2]]; [[3; 4]]]; [[[5; 6]]]])
      <> length (concat [[[[0; 1]]]; [[[2; 0]]; [[7; 7]]]])
      /\ main_split Z.of_nat Z.of_nat VAL_PERCENT
           [[[[1; 2]]; [[3; 4]]]; [[[5; 6]]]] [[[[0; 1]]]; [[[2; 0]]; [[7; 7]]]]
           ["x/a.tif"; "x/b.tif"] ["x/labels/a.tif"; "x/labels/b.tif"]
         = Raise AssertionError).
Proof.
  apply (script_assertion_checks_totals Z.of_nat Z.of_nat VAL_PERCENT
           [[[[1; 2]]; [[3; 4]]]; [[[5; 6]]]] [[[[0; 1]]]; [[[2; 0]]; [[7; 7]]]]
           ["x/a.tif"; "x/b.tif"] ["x/labels/a.tif"; "x/labels/b.tif"]);
    reflexivity.
Defined.

(** ** Binarization *)

(** X9: the binarized prediction is a map of zeros and ones as long as the
    prediction, and raising the threshold can only clear pixels: at a higher
    threshold every pixel is at most what it is at a lower one. *)
Theorem binarize_antitone (image : list Q) (t t' : Q) :
  (t <= t')%Q ->
  length (binarize image t) = length image
  /\ Forall (fun v => v = 0%Z \/ v = 1%Z) (binarize image t)
  /\ Forall2 Z.le (binarize image t') (binarize image t).
Proof.
  intros Hle. unfold binarize. split; [apply length_map|].
  induction image as [|v image [IH1 IH2]]; simpl.
  - split; constructor.
  - split; constructor; auto.
    + destruct (Qle_bool v t); auto.
    + destruct (Qle_bool v t) eqn:E.
      * apply Qle_bool_iff in E.
        assert (E' : Qle_bool v t' = true) by (apply Qle_bool_iff; eapply Qle_trans; eauto).
        rewrite E'. lia.
      * destruct (Qle_bool v t'); lia.
Qed.

Lemma binarize_antitone_witness :
  Forall2 Z.le (binarize [9 # 10; 6 # 10; 1 # 10] (7 # 10))
               (binarize [9 # 10; 6 # 10; 1 # 10] (1 # 2)).
Proof.
  apply (binarize_antitone [9 # 10; 6 # 10; 1 # 10] (1 # 2) (7 # 10)).
  discriminate.
Defined.

(** ** The matching-statistics plotter: curves and failures *)

(** The loop over the statistics draws one curve per statistic, in order, or
    raises [ValueError] at the first column that the table lacks. *)
Lemma lineplot_run (df : dataframe) (x y : string) (ax : axes) (label : string)
    (r : rcParams) (d : list cmd) :
  lineplot df x y ax label {| rc := r; drawn := d |}
  = match df !! x, df !! y with
    | Some xs, Some ys =>
        (Ok tt, {| rc := r; drawn := d ++ [Lineplot ax xs ys label] |})
    | _, _ => (Raise ValueError, {| rc := r; drawn := d |})
    end.
Proof. unfold lineplot. destruct (df !! x), (df !! y); reflexivity. Qed.

Lemma for_lineplot_outcome (df : dataframe) (x : string) (ax : axes)
    (ms : list string) (r : rcParams) (d : list cmd) :
  (Forall (fun m => is_Some (df !! m)) ms /\ (ms <> [] -> is_Some (df !! x))
   /\ for_ ms (fun m => lineplot df x m ax m) {| rc := r; drawn := d |}
      = (Ok tt, {| rc := r;
                   drawn := d ++ map (fun m => Lineplot ax (column df x) (column df m) m)
                                   ms |}))
  \/ ((exists m, In m (x :: ms) /\ df !! m = None)
      /\ (for_ ms (fun m => lineplot df x m ax m) {| rc := r; drawn := d |}).1
         = Raise ValueError).
Proof.
  revert d. induction ms as [|m ms IH]; intros d.
  - left. split; [constructor|]. split; [congruence|]. simpl. by rewrite app_nil_r.
  - simpl. unfold mbind, io_bind. rewrite lineplot_run.
    assert (Dx : (exists xs, df !! x = Some xs) \/ df !! x = None)
      by (destruct (df !! x); eauto).
    assert (Dm : (exists ys, df !! m = Some ys) \/ df !! m = None)
      by (destruct (df !! m); eauto).
    destruct Dx as [[xs Hx]|Hx]; rewrite Hx.
    + destruct Dm as [[ys Hm]|Hm]; rewrite Hm.
      * destruct (IH (d ++ [Lineplot ax xs ys m])) as [(Hall & _ & Hrun)|[Hmiss Hrun]].
        -- left. split; [constructor; [first [by rewrite Hm | by eexists]|exact Hall]|].
           split; [intros _; first [by rewrite Hx | by eexists]|]. rewrite Hrun.
           assert (Cx : column df x = xs) by (unfold column; by rewrite Hx).
           assert (Cm : column df m = ys) by (unfold column; by rewrite Hm).
           simpl. rewrite Cx, Cm. by rewrite <- app_assoc.
        -- right. split; [|exact Hrun].
           destruct Hmiss as (m' & Hin & Hn). exists m'. split; [|exact Hn].
           destruct Hin as [<-|Hin]; [left; reflexivity|right; right; exact Hin].
      * right. split; [|reflexivity]. exists m. split; [right; left; reflexivity|exact Hm].
    + right. split; [|reflexivity]. exists x. split; [left; reflexivity|exact Hx].
Qed.

Section PlotterRuns.

Variable invert_color : string -> string.
Context {Stats : Type}.
Variable dataset_matching_stats_to_df : Stats -> result dataframe.
Variable DARK_MODE : bool.
Variable dark_background : rcParams.

Local Abbreviation palette := (Cycle (COLORMAP invert_color DARK_MODE)).
Local Abbreviation run :=
  (plot_performance invert_color dataset_matching_stats_to_df DARK_MODE
     dark_background).

(** The styling globals under which the figure of a call is created. *)
Local Abbreviation figure_style w :=
  (<["axes.prop_cycle" := palette]>
     (if DARK_MODE then dark_background ∪ <["axes.prop_cycle" := palette]> (rc w)
      else rc w)).

(** X10: when the record collection converts to a table that holds the
    [thresh] column and every column plotted, [plot_performance] returns the
    figure after drawing, in this order: the figure and its title; on the left
    panel one curve per requested statistic, in the order requested and
    labelled by the statistic; the left axes; on the right panel the curves of
    [fp], [tp] and [fn]; the right axes. *)
Theorem plot_performance_draws (taus : list Q) (stats : Stats) (df : dataframe)
    (name metric : string) (stats_list : list string) (w : world) :
  dataset_matching_stats_to_df stats = Ok df ->
  has_columns df stats_list ->
  run taus stats name metric stats_list w
  = (Ok (length (drawn w)),
     {| rc := <["axes.prop_cycle" := palette]> (rc w);
        drawn := drawn w ++
          [Subplots 1 2 16 6 DPI (figure_style w); Suptitle name TITLE_FONT_SIZE]
          ++ map (fun m => Lineplot ax1 (column df "thresh") (column df m) m) stats_list
          ++ [AxSet ax1 true;
              AxLabels ax1 (metric +:+ " threshold $\tau$") "Metric value" LABEL_FONT_SIZE;
              AxFinish ax1 LEGEND_FONT_SIZE]
          ++ map (fun m => Lineplot ax2 (column df "thresh") (column df m) m)
               ["fp"; "tp"; "fn"]
          ++ [AxSet ax2 false;
              AxLabels ax2 (metric +:+ " threshold $\tau$") "Number #" LABEL_FONT_SIZE;
              AxFinish ax2 LEGEND_FONT_SIZE; Despine] |}).
Proof.
  intros Hdf Hcols.
  assert (Ht : is_Some (df !! "thresh")) by (apply Hcols; left; reflexivity).
  assert (Hfp : is_Some (df !! "fp")).
  { apply Hcols. right. apply in_or_app. right. simpl. auto. }
  assert (Htp : is_Some (df !! "tp")).
  { apply Hcols. right. apply in_or_app. right. simpl. auto. }
  assert (Hfn : is_Some (df !! "fn")).
  { apply Hcols. right. apply in_or_app. right. simpl. auto. }
  assert (Hms : forall r d,
            for_ stats_list (fun m => lineplot df "thresh" m ax1 m)
              {| rc := r; drawn := d |}
            = (Ok tt, {| rc := r;
                         drawn := d ++ map (fun m => Lineplot ax1 (column df "thresh")
                                                       (column df m) m) stats_list |})).
  { intros r d.
    destruct (for_lineplot_outcome df "thresh" ax1 stats_list r d)
      as [(_ & _ & Hrun)|[(m & Hin & Hn) _]]; [exact Hrun|].
    exfalso. assert (Hs : is_Some (df !! m)).
    { apply Hcols. destruct Hin as [<-|Hin]; [left; reflexivity|].
      right. apply in_or_app. left. exact Hin. }
    rewrite Hn in Hs. by destruct Hs. }
  destruct Ht as [xs Ht], Hfp as [fp Hfp], Htp as [tp Htp], Hfn as [fn Hfn].
  destruct w as [r d]. unfold plot_performance, get_style_context.
  generalize (COLORMAP invert_color DARK_MODE). intros p.
  destruct DARK_MODE;
    unfold mbind, io_bind, with_, set_palette, get_rc, put_rc, subplots, draw, lift,
      mret, io_ret; simpl; rewrite Hdf, Hms; simpl;
    unfold mbind, io_bind, lineplot, draw, mret, io_ret; rewrite Ht, Hfp, Htp, Hfn; simpl;
    unfold column; rewrite Ht, Hfp, Htp, Hfn; simpl;
    rewrite ?insert_insert_eq, <- ?app_assoc; simpl; reflexivity.
Qed.

End PlotterRuns.

Lemma plot_performance_draws_witness :
  exists drawing,
    plot_performance id Ok false ∅ [] sample_table "model" "IoU" ["f1"; "recall"]
      {| rc := ∅; drawn := [] |}
    = (Ok 0%nat, {| rc := {["axes.prop_cycle" := Cycle COLORMAP_LIGHT]};
                    drawn := drawing |})
    /\ filter (fun c => is_curve c = true) drawing
       = [Lineplot ax1 [1 # 2; 7 # 10]%Q [1 # 2; 7 # 10]%Q "f1";
          Lineplot ax1 [1 # 2; 7 # 10]%Q [1 # 2; 7 # 10]%Q "recall";
          Lineplot ax2 [1 # 2; 7 # 10]%Q [1 # 2; 7 # 10]%Q "fp";
          Lineplot ax2 [1 # 2; 7 # 10]%Q [1 # 2; 7 # 10]%Q "tp";
          Lineplot ax2 [1 # 2; 7 # 10]%Q [1 # 2; 7 # 10]%Q "fn"].
Proof.
  eexists. split.
  - rewrite (plot_performance_draws id Ok false ∅ [] sample_table sample_table
               "model" "IoU" ["f1"; "recall"] {| rc := ∅; drawn := [] |}).
    + reflexivity.
    + reflexivity.
    + intros c Hc. simpl in Hc.
      repeat (destruct Hc as [<- | Hc]; [vm_compute; eauto|]). contradiction.
  - vm_compute. reflexivity.
Defined.

Section PlotterFailures.

Variable invert_color : string -> string.
Context {Stats : Type}.
Variable dataset_matching_stats_to_df : Stats -> result dataframe.
Variable DARK_MODE : bool.
Variable dark_background : rcParams.

Local Abbreviation palette := (Cycle (COLORMAP invert_color DARK_MODE)).
Local Abbreviation run :=
  (plot_performance invert_color dataset_matching_stats_to_df DARK_MODE
     dark_background).

(** X11: once the record collection has converted to a table,
    [plot_performance] returns exactly when the table holds the [thresh]
    column, every requested statistic and the [fp], [tp] and [fn] columns;
    with any of them missing it raises [ValueError]. *)
Theorem plot_performance_needs_columns (taus : list Q) (stats : Stats)
    (df : dataframe) (name metric : string) (stats_list : list string) (w : world) :
  dataset_matching_stats_to_df stats = Ok df ->
  (has_columns df stats_list
   /\ returns (run taus stats name metric stats_list w).1)
  \/ (~ has_columns df stats_list
      /\ (run taus stats name metric stats_list w).1 = Raise ValueError).
Proof.
  intros Hdf.
  destruct (decide (Forall (fun c => is_Some (df !! c))
                      ("thresh" :: stats_list ++ ["fp"; "tp"; "fn"]))) as [Hall|Hnot].
  - left. assert (Hcols : has_columns df stats_list).
    { intros c Hc. rewrite Forall_forall in Hall. by apply Hall, list_elem_of_In. }
    split; [exact Hcols|].
    destruct (plot_performance_footprint invert_color dataset_matching_stats_to_df
                DARK_MODE dark_background taus stats name metric stats_list w)
      as (_ & _ & Hret).
    destruct (Hret df Hdf Hcols) as [fig Hfig]. by exists fig.
  - right. assert (Hcols : ~ has_columns df stats_list).
    { intros Hc. apply Hnot. apply Forall_forall. intros c Hin.
      by apply Hc, list_elem_of_In. }
    split; [exact Hcols|].
    destruct w as [r d]. unfold plot_performance, get_style_context.
    generalize (COLORMAP invert_color DARK_MODE). intros p.
    destruct DARK_MODE;
      unfold mbind, io_bind, with_, set_palette, get_rc, put_rc, subplots, draw, lift,
        mret, io_ret; simpl; rewrite Hdf; simpl;
      match goal with
      | |- context [for_ stats_list _ {| rc := ?r1; drawn := ?d1 |}] =>
          destruct (for_lineplot_outcome df "thresh" ax1 stats_list r1 d1)
            as [(Hpresent & _ & Hrun)|[_ Hrun]]
      end;
      try (rewrite Hrun; simpl;
           unfold mbind, io_bind, mret, io_ret; rewrite !lineplot_run;
           destruct (df !! "thresh") eqn:Ht; simpl; [|reflexivity];
           destruct (df !! "fp") eqn:Hfp; simpl; [|reflexivity];
           rewrite !lineplot_run, Ht;
           destruct (df !! "tp") eqn:Htp; simpl; [|reflexivity];
           rewrite !lineplot_run, Ht;
           destruct (df !! "fn") eqn:Hfn; simpl; [|reflexivity];
           exfalso; apply Hnot; constructor; [by rewrite Ht|];
           apply Forall_app; split; [exact Hpresent|];
           repeat constructor; by eexists);
      try (match goal with
           | |- context [for_ stats_list ?b ?w1] =>
               destruct (for_ stats_list b w1) as [[[]|e] w2]
           end; simpl in Hrun; [discriminate|injection Hrun as ->; reflexivity]).
Qed.

(** X12: when the conversion of the record collection raises, the exception
    is the outcome of [plot_performance]; by then the figure has been created
    and titled, and no curve is drawn. *)
Theorem plot_performance_conversion_error (taus : list Q) (stats : Stats) (e : exn)
    (name metric : string) (stats_list : list string) (w : world) :
  dataset_matching_stats_to_df stats = Raise e ->
  exists style,
    run taus stats name metric stats_list w
    = (Raise e,
       {| rc := <["axes.prop_cycle" := palette]> (rc w);
          drawn := drawn w ++ [Subplots 1 2 16 6 DPI style;
                               Suptitle name TITLE_FONT_SIZE] |}).
Proof.
  intros Hdf. destruct w as [r d]. unfold plot_performance, get_style_context.
  generalize (COLORMAP invert_color DARK_MODE). intros p.
  destruct DARK_MODE;
    unfold mbind, io_bind, with_, set_palette, get_rc, put_rc, subplots, draw, lift,
      mret, io_ret; simpl; rewrite Hdf; simpl; eexists;
    rewrite ?insert_insert_eq, <- ?app_assoc; simpl; reflexivity.
Qed.

End PlotterFailures.

Lemma plot_performance_needs_columns_witness :
  ~ has_columns (delete "tp" sample_table) default_stats_list
  /\ (plot_performance id Ok false ∅ [] (delete "tp" sample_table) "model" "IoU"
        default_stats_list {| rc := ∅; drawn := [] |}).1 = Raise ValueError.
Proof.
  destruct (plot_performance_needs_columns id Ok false ∅ [] (delete "tp" sample_table)
              (delete "tp" sample_table) "model" "IoU" default_stats_list
              {| rc := ∅; drawn := [] |}) as [[Hc _]|H].
  - reflexivity.
  - exfalso. destruct (Hc "tp") as [v Hv].
    + right. apply in_or_app. right. simpl. auto.
    + rewrite lookup_delete_eq in Hv. discriminate.
  - exact H.
Defined.

Lemma plot_performance_conversion_error_witness :
  exists style,
    plot_performance id (fun _ : unit => Raise TypeError) false ∅ [] tt "model" "IoU"
      default_stats_list {| rc := ∅; drawn := [] |}
    = (Raise TypeError,
       {| rc := <["axes.prop_cycle" := Cycle (COLORMAP id false)]> ∅;
          drawn := [] ++ [Subplots 1 2 16 6 DPI style; Suptitle "model" TITLE_FONT_SIZE] |}).
Proof.
  apply (plot_performance_conversion_error id (fun _ : unit => Raise TypeError) false ∅
           [] tt TypeError "model" "IoU" default_stats_list {| rc := ∅; drawn := [] |}).
  reflexivity.
Defined.

(** ** The multi-model comparison *)

Lemma upper_char_not_lower (c : ascii) :
  ~ (97 <= nat_of_ascii (upper_char c) <= 122)%nat.
Proof. destruct c as [[] [] [] [] [] [] [] []]; vm_compute; lia. Qed.

Lemma upper_char_idempotent (c : ascii) : upper_char (upper_char c) = upper_char c.
Proof. destruct c as [[] [] [] [] [] [] [] []]; reflexivity. Qed.

Lemma replace_underscores_length (s : string) :
  String.length (replace_underscores s) = String.length s.
Proof. induction s as [|c s IH]; simpl; [reflexivity|]. by rewrite IH. Qed.

Lemma replace_underscores_clean (s : string) :
  "_"%char ∉ list_ascii_of_string (replace_underscores s).
Proof.
  induction s as [|c s IH]; simpl; [apply not_elem_of_nil|].
  apply not_elem_of_cons. split; [|exact IH].
  destruct (Ascii.eqb_spec c "_"%char); [discriminate|congruence].
Qed.

Lemma replace_underscores_idempotent (s : string) :
  replace_underscores (replace_underscores s) = replace_underscores s.
Proof.
  induction s as [|c s IH]; simpl; [reflexivity|]. rewrite IH. f_equal.
  destruct (Ascii.eqb_spec c "_"%char) as [->|Hc]; [reflexivity|].
  destruct (Ascii.eqb_spec c "_"%char); [contradiction|reflexivity].
Qed.

(** X13: the title of a statistic. The empty identifier raises [IndexError];
    any other identifier gives a title as long as the identifier, without
    underscores, not starting with a lower-case letter, and which is its own
    title. *)
Theorem stat_title_shape (stat : string) :
  is_ascii7 stat ->
  (stat = "" /\ stat_title stat = Raise IndexError)
  \/ (exists c rest,
        stat_title stat = Ok (String c rest)
        /\ String.length (String c rest) = String.length stat
        /\ ("_"%char ∉ list_ascii_of_string (String c rest))
        /\ ~ (97 <= nat_of_ascii c <= 122)%nat
        /\ stat_title (String c rest) = Ok (String c rest)).
Proof.
  intros _. destruct stat as [|c0 rest0]; [left; auto|]. right.
  unfold stat_title. simpl. do 2 eexists. split; [reflexivity|].
  split; [by rewrite replace_underscores_length|].
  split; [apply (replace_underscores_clean (String (upper_char c0) rest0))|].
  split.
  - destruct c0 as [[] [] [] [] [] [] [] []]; vm_compute; lia.
  - rewrite replace_underscores_idempotent. f_equal. f_equal.
    destruct c0 as [[] [] [] [] [] [] [] []]; reflexivity.
Qed.

Lemma stat_title_shape_witness :
  exists c rest,
    stat_title "mean_true_score" = Ok (String c rest)
    /\ String c rest = "Mean true score".
Proof.
  destruct (stat_title_shape "mean_true_score") as [[E _]|(c & rest & H & _)].
  - unfold is_ascii7. simpl. repeat (constructor; [vm_compute; lia|]). constructor.
  - discriminate E.
  - exists c, rest. split; [exact H|]. vm_compute in H. by injection H as <- <-.
Defined.

Lemma convert_all_first_error {Stats : Type}
    (dataset_matching_stats_to_df : Stats -> result dataframe)
    (good : list Stats) (bad : Stats) (rest : list Stats) (e : exn) :
  Forall (fun s => returns (dataset_matching_stats_to_df s)) good ->
  dataset_matching_stats_to_df bad = Raise e ->
  convert_all dataset_matching_stats_to_df (good ++ bad :: rest) = Raise e.
Proof.
  intros Hgood Hbad. induction Hgood as [|s good [df Hs] _ IH]; simpl.
  - by rewrite Hbad.
  - rewrite Hs. simpl. by rewrite IH.
Qed.

Section ComparisonFacts.

Variable invert_color : string -> string.
Context {Stats : Type}.
Variable dataset_matching_stats_to_df : Stats -> result dataframe.
Variable DARK_MODE : bool.
Variable dark_background : rcParams.
Variable vector_ok : list Q -> dataframe -> bool.

Local Abbreviation palette := (Cycle (COLORMAP invert_color DARK_MODE)).
Local Abbreviation compare :=
  (plot_stat_comparison invert_color dataset_matching_stats_to_df DARK_MODE
     dark_background vector_ok).

(** The loop over the tables: one curve per table, labelled by position in
    [model_names], until the names run out. *)
Lemma comparison_loop_run (taus : list Q) (model_names : list string) (stat : string)
    (dfs : list dataframe) (i0 : nat) (r : rcParams) (d : list cmd) :
  Forall (fun df => is_Some (df !! stat) /\ vector_ok taus df = true) dfs ->
  for_ (enumerate_from i0 dfs)
    (fun '(i, stats) =>
       label ← lift (getitem model_names i);
       lineplot_vector vector_ok stats taus stat label)
    {| rc := r; drawn := d |}
  = (if (length dfs <=? length (drop i0 model_names))%nat
     then Ok tt else Raise IndexError,
     {| rc := r;
        drawn := d ++ zip_with (fun df label => Lineplot ax1 taus (column df stat) label)
                        dfs (drop i0 model_names) |}).
Proof.
  intros Hok. revert i0 d. induction Hok as [|df dfs [[ys Hy] Hv] _ IH]; intros i0 d.
  - simpl. by rewrite app_nil_r.
  - simpl. unfold mbind at 1, io_bind at 1. unfold mbind at 1, io_bind at 1, lift, getitem.
    destruct (model_names !! i0) as [label|] eqn:Hl.
    + rewrite (drop_S _ _ _ Hl). unfold lineplot_vector. rewrite Hy, Hv. simpl.
      rewrite IH. unfold column at 2. rewrite Hy. simpl. by rewrite <- app_assoc.
    + rewrite (drop_ge model_names i0) by (by apply lookup_ge_None).
      simpl. by rewrite app_nil_r.
Qed.

(** X14: with an empty statistic identifier, the comparison raises
    [IndexError] once the figure is created: nothing is titled, converted or
    plotted. *)
Theorem plot_stat_comparison_empty_stat (taus : list Q) (stats_list : list Stats)
    (model_names : list string) (metric : string) (w : world) :
  exists style,
    compare taus stats_list model_names "" metric w
    = (Raise IndexError,
       {| rc := <["axes.prop_cycle" := palette]> (rc w);
          drawn := drawn w ++ [Subplots 1 1 12 6 DPI style] |}).
Proof.
  destruct w as [r d]. unfold plot_stat_comparison, get_style_context.
  generalize (COLORMAP invert_color DARK_MODE). intros p.
  destruct DARK_MODE;
    unfold mbind, io_bind, with_, set_palette, get_rc, put_rc, subplots, draw, lift,
      mret, io_ret; simpl; eexists; rewrite ?insert_insert_eq; reflexivity.
Qed.

(** X15: every record collection is converted before anything is plotted:
    when the conversion of one of them raises, the exception of the first one
    that does is the outcome, after the figure is created and titled, and no
    curve is drawn, not even for the collections before it. *)
Theorem plot_stat_comparison_converts_first (taus : list Q)
    (good : list Stats) (bad : Stats) (rest : list Stats) (e : exn)
    (model_names : list string) (stat title metric : string) (w : world) :
  stat_title stat = Ok title ->
  Forall (fun s => returns (dataset_matching_stats_to_df s)) good ->
  dataset_matching_stats_to_df bad = Raise e ->
  exists style,
    compare taus (good ++ bad :: rest) model_names stat metric w
    = (Raise e,
       {| rc := <["axes.prop_cycle" := palette]> (rc w);
          drawn := drawn w ++ [Subplots 1 1 12 6 DPI style;
                               Suptitle (title +:+ " comparison") TITLE_FONT_SIZE] |}).
Proof.
  intros Ht Hgood Hbad.
  pose proof (convert_all_first_error dataset_matching_stats_to_df good bad rest e
                Hgood Hbad) as Hconv.
  destruct w as [r d]. unfold plot_stat_comparison, get_style_context.
  generalize (COLORMAP invert_color DARK_MODE). intros p.
  destruct DARK_MODE;
    unfold mbind, io_bind, with_, set_palette, get_rc, put_rc, subplots, draw, lift,
      mret, io_ret; simpl; rewrite Ht, Hconv; simpl; eexists;
    rewrite ?insert_insert_eq, <- ?app_assoc; reflexivity.
Qed.

(** X16: when every record collection converts to a table that holds the
    statistic and whose rows the plotting library matches with the
    thresholds, the comparison draws one curve per table, in order, the
    [i]-th labelled [model_names[i]], between the title and the axes; with as
    many names as tables or more it returns, and with fewer names it raises
    [IndexError] after the curves that have a name. *)
Theorem plot_stat_comparison_curves (taus : list Q) (stats_list : list Stats)
    (dfs : list dataframe) (model_names : list string)
    (stat title metric : string) (w : world) :
  stat_title stat = Ok title ->
  convert_all dataset_matching_stats_to_df stats_list = Ok dfs ->
  Forall (fun df => is_Some (df !! stat) /\ vector_ok taus df = true) dfs ->
  exists style,
    let curves := zip_with (fun df label => Lineplot ax1 taus (column df stat) label)
                    dfs model_names in
    let head := [Subplots 1 1 12 6 DPI style;
                 Suptitle (title +:+ " comparison") TITLE_FONT_SIZE] in
    compare taus stats_list model_names stat metric w
    = if (length dfs <=? length model_names)%nat
      then (Ok tt,
            {| rc := <["axes.prop_cycle" := palette]> (rc w);
               drawn := drawn w ++ head ++ curves ++
                 [AxSet ax1 true;
                  AxLabels ax1 (metric +:+ " threshold $\tau$") title LABEL_FONT_SIZE;
                  Despine; AxFinish ax1 FONT_SIZE] |})
      else (Raise IndexError,
            {| rc := <["axes.prop_cycle" := palette]> (rc w);
               drawn := drawn w ++ head ++ curves |}).
Proof.
  intros Ht Hconv Hok.
  destruct w as [r d]. unfold plot_stat_comparison, get_style_context.
  generalize (COLORMAP invert_color DARK_MODE). intros p.
  set (body := fun '(i, stats) =>
                 label ← lift (getitem model_names i);
                 lineplot_vector vector_ok stats taus stat label).
  assert (Hloop : forall r1 d1,
            for_ (enumerate dfs) body {| rc := r1; drawn := d1 |}
            = (if (length dfs <=? length model_names)%nat
               then Ok tt else Raise IndexError,
               {| rc := r1;
                  drawn := d1 ++ zip_with (fun df label =>
                                             Lineplot ax1 taus (column df stat) label)
                                   dfs model_names |})).
  { intros r1 d1. unfold enumerate, body.
    rewrite (comparison_loop_run taus model_names stat dfs 0 r1 d1 Hok).
    reflexivity. }
  clearbody body.
  destruct DARK_MODE;
    unfold mbind, io_bind, with_, set_palette, get_rc, put_rc, subplots, draw, lift,
      mret, io_ret; simpl; rewrite Ht, Hconv; simpl; rewrite Hloop; eexists;
    destruct (length dfs <=? length model_names)%nat; simpl;
    rewrite ?insert_insert_eq, <- ?app_assoc; reflexivity.
Qed.

(** X17: a call of the comparison, whether it returns or raises, leaves
    every styling global other than the colour cycle as it was before the
    call, and leaves the colour cycle set to the module palette. *)
Theorem plot_stat_comparison_styling (taus : list Q) (stats_list : list Stats)
    (model_names : list string) (stat metric : string) (w : world) :
  rc (compare taus stats_list model_names stat metric w).2
  = <["axes.prop_cycle" := palette]> (rc w).
Proof.
  unfold plot_stat_comparison, get_style_context.
  generalize (COLORMAP invert_color DARK_MODE). intros p.
  match goal with
  | |- context [with_ _ ?b] => set (body := b)
  end.
  assert (Hbody : forall w1,
            rc (body w1).2 = <["axes.prop_cycle" := Cycle p]> (rc w1)).
  { intros w1. subst body.
    match goal with
    | |- context [subplots 1 1 12 6 DPI ≫= ?k] => set (rest := k)
    end.
    destruct (palette_then_figure p 1 1 12 6 DPI rest w1) as (H1 & _ & _);
      [|exact H1].
    intros fig. subst rest. cbv beta.
    repeat first
      [ apply frames_ret | apply frames_draw | apply frames_lift
      | apply frames_for; intros [i df]
      | apply frames_bind; [|intros] ].
    unfold lineplot_vector. destruct (df !! stat); [|apply frames_lift].
    destruct (vector_ok taus df); [apply frames_draw|apply frames_lift]. }
  clearbody body. destruct w as [r d].
  destruct DARK_MODE;
    unfold mbind, io_bind, set_palette, get_rc, put_rc, mret, io_ret, with_; simpl.
  - destruct (body _) as [res w2]. reflexivity.
  - rewrite Hbody. simpl. apply insert_insert_eq.
Qed.

End ComparisonFacts.

Lemma plot_stat_comparison_converts_first_witness :
  exists style,
    plot_stat_comparison id
      (fun o : option dataframe =>
         match o with Some df => Ok df | None => Raise TypeError end)
      false ∅ (fun _ _ => true) [1 # 2; 7 # 10]%Q
      ([Some sample_table] ++ None :: [Some sample_table]) ["A"; "B"; "C"] "f1" "IoU"
      {| rc := ∅; drawn := [] |}
    = (Raise TypeError,
       {| rc := <["axes.prop_cycle" := Cycle (COLORMAP id false)]> ∅;
          drawn := [] ++ [Subplots 1 1 12 6 DPI style;
                          Suptitle ("F1" +:+ " comparison") TITLE_FONT_SIZE] |}).
Proof.
  apply (plot_stat_comparison_converts_first id
           (fun o : option dataframe =>
              match o with Some df => Ok df | None => Raise TypeError end)
           false ∅ (fun _ _ => true) [1 # 2; 7 # 10]%Q
           [Some sample_table] None [Some sample_table] TypeError ["A"; "B"; "C"]
           "f1" "F1" "IoU" {| rc := ∅; drawn := [] |}).
  - reflexivity.
  - repeat constructor. by eexists.
  - reflexivity.
Defined.

Lemma plot_stat_comparison_curves_witness :
  exists style,
    plot_stat_comparison id Ok false ∅ (fun _ _ => true) [1 # 2; 7 # 10]%Q
      [sample_table; sample_table] ["A"] "f1" "IoU" {| rc := ∅; drawn := [] |}
    = (Raise IndexError,
       {| rc := <["axes.prop_cycle" := Cycle (COLORMAP id false)]> ∅;
          drawn := [] ++ [Subplots 1 1 12 6 DPI style;
                          Suptitle ("F1" +:+ " comparison") TITLE_FONT_SIZE]
                   ++ [Lineplot ax1 [1 # 2; 7 # 10]%Q (column sample_table "f1") "A"] |}).
Proof.
  apply (plot_stat_comparison_curves id Ok false ∅ (fun _ _ => true)
           [1 # 2; 7 # 10]%Q [sample_table; sample_table]
           [sample_table; sample_table] ["A"] "f1" "F1" "IoU"
           {| rc := ∅; drawn := [] |}).
  - reflexivity.
  - reflexivity.
  - repeat constructor; vm_compute; eauto.
Defined.

(** ** The three rendering functions: return and refusal *)


Section RenderingFacts.

Variable invert_color : string -> string.
Context {Stats : Type}.
Variable dataset_matching_stats_to_df : Stats -> result dataframe.
Variable DARK_MODE : bool.
Variable dark_background : rcParams.
Variable vector_ok : list Q -> dataframe -> bool.

Local Abbreviation comparison :=
  (plot_stat_comparison invert_color dataset_matching_stats_to_df DARK_MODE
     dark_background vector_ok).



End RenderingFacts.



